(** * sonik: the file-based router of [packages/sonik/src/server/server.ts]

    A shallow embedding of [createApp] and of its inner [toWebResponse],
    together with the properties of the route composition and rendering
    pipeline.

    Conventions of the embedding.
    - A JavaScript object that the code iterates with [Object.entries] is an
      association list in insertion order ([JsObject]); an object that is
      only read by key is a [gmap].
    - User code (components, handlers, layouts, preserved handlers) runs in
      a state-and-exception monad over the part of the JavaScript heap it
      can reach ([World]); [await] is sequential composition. An exception
      is a value that user code threw or an error of the platform
      ([Exception]).
    - A status is an integer; the [Response] constructor converts it to an
      unsigned short and refuses what the Fetch standard refuses
      ([new_Response]).
    - A regular expression is matched here when its source has no syntax
      character, and is left to the engine of the platform otherwise
      ([Path.rootPath]).
    - A [Head] is an object with identity: the model keeps the identity (the
      ordinal of its allocation) and leaves the contents to [World].
    - The closures that [createApp] hands to the router are kept as data
      ([Closure]) with an interpreter ([run_closure]), so that the router
      calls of an installation can be inspected as well as run. *)

From Stdlib Require Import ZArith Ascii String Sorted Permutation.
From stdpp Require Import base option list strings gmap.

Open Scope string_scope.
Open Scope list_scope.

(** ** Strings: [String.prototype.split('/')] and [Array.prototype.join('/')] *)

Module Path.

Definition slash : ascii := "/"%char.

(** [s.split('/')]: never empty, one more element than there are slashes. *)
Fixpoint split (s : string) : list string :=
  match s with
  | EmptyString => [""]
  | String c s' =>
      if Ascii.eqb c slash then "" :: split s'
      else match split s' with
           | h :: t => String c h :: t
           | [] => [String c ""]
           end
  end.

(** [paths.join('/')]. *)
Fixpoint join (paths : list string) : string :=
  match paths with
  | [] => ""
  | [p] => p
  | p :: rest => p +:+ "/" +:+ join rest
  end.

(** [s.split('/').length], the sort key of [toWebResponse]. *)
Definition segments (s : string) : nat := length (split s).

(** The syntax characters of a regular expression: a pattern without
    them stands for itself. *)
Definition syntax_character (c : ascii) : bool :=
  existsb (Ascii.eqb c)
    (ascii_of_nat 92 (* the backslash *)
     :: ["^"; "$"; "."; "*"; "+"; "?"; "("; ")"; "["; "]"; "{"; "}"; "|"]%char).

Fixpoint literal (source : string) : bool :=
  match source with
  | EmptyString => true
  | String c source' => negb (syntax_character c) && literal source'
  end.

(** What is left of [dir] after a leading [root], if it begins with
    [root]: the match of the pattern [^root] for a [root] that stands for
    itself. *)
Fixpoint stripRoot (root dir : string) : option string :=
  match root, dir with
  | EmptyString, _ => Some dir
  | String a root', String b dir' =>
      if Ascii.eqb a b then stripRoot root' dir' else None
  | String _ _, EmptyString => None
  end.

(** [dir.replace(new RegExp(`^${root}`), '')]. For a [root] without
    syntax characters (such as the default ['/app/routes']) a leading
    [root] is removed and anything else is kept; for any other [root] the
    result is the one of the regular-expression engine of the platform,
    [regexp_replace source subject] standing for
    [subject.replace(new RegExp(source), '')] with a source that the
    engine compiles. *)
Definition rootPath (regexp_replace : string → string → string)
    (root dir : string) : string :=
  if literal root then default dir (stripRoot root dir)
  else regexp_replace ("^" +:+ root) dir.

End Path.

(** ** [Array.prototype.sort] with the comparator of [toWebResponse]

    [layouts.sort((a, b) => b.split('/').length - a.split('/').length)].
    The comparator is a consistent ordering by descending segment count and
    the sort of ECMAScript is stable, which determines the result; it is
    computed here by insertion. *)

Module LayoutSort.

(** [x] moves past [y] only when [y] is strictly deeper. *)
Fixpoint insert (x : string) (l : list string) : list string :=
  match l with
  | [] => [x]
  | y :: l' =>
      if Nat.ltb (Path.segments x) (Path.segments y)
      then y :: insert x l'
      else x :: l
  end.

Fixpoint sort (l : list string) : list string :=
  match l with
  | [] => []
  | x :: l' => insert x (sort l')
  end.

(** Deepest first. *)
Definition deeper_eq (a b : string) : Prop :=
  Path.segments b <= Path.segments a.

(** The elements of [l] that have [k] segments, in the order of [l]. *)
Definition with_segments (k : nat) (l : list string) : list string :=
  filter (λ p, Path.segments p = k) l.

End LayoutSort.

(** ** Responses *)

Record Response := mkResponse {
  status : Z;
  headers : list (string * string);
  body : string
}.

(** [addDocType] *)
Definition addDocType (html : string) : string :=
  "<!doctype html>" +:+ html.

(** The errors of the platform that the code can run into. *)
Inductive PlatformError :=
| RangeError
| TypeError.

(** The conversion of a number to [unsigned short]: modulo [2^16]. *)
Definition unsigned_short (n : Z) : Z := (n mod 65536)%Z.

(** The statuses of a response that must not have a body. *)
Definition null_body_status (status : Z) : bool :=
  existsb (Z.eqb status) [101; 103; 204; 205; 304]%Z.

(** [new Response(body, { status, headers })] with a body that is a
    string, after the Fetch standard: the status is converted to an
    unsigned short; a [RangeError] is thrown unless it is in the range
    200 to 599, and a [TypeError] if it is a null body status. *)
Definition new_Response (body : string) (status : Z)
    (headers : list (string * string)) : PlatformError + Response :=
  let status := unsigned_short status in
  if negb ((200 <=? status) && (status <=? 599))%Z then inl RangeError
  else if null_body_status status then inl TypeError
  else inr {| status := status; headers := headers; body := body |}.

(** The statuses that the constructor accepts for a response with a
    body. *)
Definition accepted_status (status : Z) : bool :=
  let status := unsigned_short status in
  (200 <=? status)%Z && (status <=? 599)%Z && negb (null_body_status status).

(** [returnHtml] *)
Definition returnHtml (html : string) (status : Z)
    : PlatformError + Response :=
  new_Response html status [("Content-Type", "text/html; charset=utf-8")].

(** What can be thrown: a value that user code threw, or an error of the
    platform. *)
Inductive Exception (Err : Type) :=
| Raised (e : Err)
| Platform (e : PlatformError).
Arguments Raised {Err} e.
Arguments Platform {Err} e.

(** A render context ([Head]) is an object; the model keeps its identity. *)
Definition Head := nat.

(** A JavaScript object whose entries are enumerated in insertion order;
    [obj_get] reads a property. *)
Definition JsObject (A : Type) := list (string * A).

Fixpoint obj_get {A} (k : string) (o : JsObject A) : option A :=
  match o with
  | [] => None
  | (k', v) :: o' => if String.eqb k k' then Some v else obj_get k o'
  end.

(** ** User code: state and exceptions *)

Section Monad.
Context {World Err : Type}.

Inductive Outcome (A : Type) :=
| Ok (a : A)
| Throw (e : Exception Err).
Global Arguments Ok {A} a.
Global Arguments Throw {A} e.

Definition M (A : Type) : Type := World → Outcome A * World.

Definition ret {A} (a : A) : M A := λ w, (Ok a, w).

Definition bind {A B} (m : M A) (k : A → M B) : M B :=
  λ w, match m w with
       | (Ok a, w') => k a w'
       | (Throw e, w') => (Throw e, w')
       end.

(** [throw e] *)
Definition throw {A} (e : Exception Err) : M A := λ w, (Throw e, w).

(** [try { m } catch (e) { h(e) }] *)
Definition catch {A} (m : M A) (h : Exception Err → M A) : M A :=
  λ w, match m w with
       | (Ok a, w') => (Ok a, w')
       | (Throw e, w') => h e w'
       end.

End Monad.

Arguments M : clear implicits.
Arguments Outcome : clear implicits.

Notation "'let*' x ':=' m 'in' k" := (bind m (λ x, k))
  (at level 10, x name, m at level 100, k at level 200, only parsing).

(** ** The data of [createApp] *)

Section Server.

Context {Node Ctx Err World : Type}.

(** [options.renderToString] *)
Variable render : Node → string.

(** [filePathToPath], [groupByDirectory] and [listByDirectory] of
    [../utils/file.js]. *)
Variable filePathToPath : string → string.
Variable groupByDirectory : ∀ A : Type, JsObject A → JsObject (JsObject A).
Variable listByDirectory : ∀ A : Type, JsObject A → gmap string (list string).

(** The regular-expression engine of the platform:
    [subject.replace(new RegExp(source), '')]. *)
Variable regexp_replace : string → string → string.

#[local] Abbreviation M := (M World Err).

(** [next]: the continuation that the router hands to a handler. *)
Definition Next := M unit.

(** What reaches [toWebResponse] once a promise has been awaited: a
    [Response], or content to serialize (a string or a node). *)
Inductive Content :=
| CNode (n : Node)
| CResponse (r : Response).

(** [layout.default({ children, head, filename })] *)
Definition LayoutHandler := Node → Head → string → M Node.

(** [FC]: [routeDefault(c, { head })] *)
Definition FC := Ctx → Head → M Content.

(** [Handler]: [handler(c, { head, next })] *)
Definition Handler := Ctx → Head → Next → M Content.

(** [NotFoundHandler] and [ErrorHandler]: [handler(c, { head })] and
    [handler(c, { error, head })]. *)
Definition PreservedHandler :=
  Ctx → option (Exception Err) → Head → M Content.

(** A route of a router that user code has built: method, path pattern
    and handler, which the router calls with the context and [next]. *)
Definition UserRoute : Type := string * string * (Ctx → Next → M Response).

(** A default export with a [fetch] member: a router of its own. *)
Definition MountedApp := list UserRoute.

(** The [render] member handed to an [APP] handler. *)
Definition RenderCallback := Content → option Z → M Response.

(** [appHandler(subApp.use(path), { head, render })], as the routes it
    registers on the sub-router it is given. *)
Definition APPHandler := Head → RenderCallback → list UserRoute.

(** A member of a route object is a function; the installer calls it as
    an [APP] handler under the key ['APP'] and as a request handler under
    any other key. *)
Record Member := {
  as_handler : Handler;
  as_app : APPHandler
}.

(** [route.default], of type [FC & Route & Hono]. *)
Record RouteDefault := {
  rd_fetch : option MountedApp;          (* ['fetch' in routeDefault] *)
  rd_call : option FC;                   (* [typeof routeDefault === 'function'] *)
  rd_entries : JsObject (option Member)  (* [Object.entries(routeDefault)] *)
}.

(** A route module; [default] may be missing. *)
Definition RouteFile := option RouteDefault.

Record ToWebOptions := {
  o_head : Head;
  o_layouts : option (list string);
  o_filename : string
}.

(** ** Closures handed to the router

    Each constructor is one function expression of [createApp]; what it
    captures is what the expression closes over. [run_closure] below is
    its body. *)
Inductive Closure :=
| CloComponent (routeDefault : FC) (resOptions : ToWebOptions)
    (* [(c) => toWebResponse(routeDefault(c, { head }), 200, resOptions)] *)
| CloMethod (handler : Handler) (resOptions : ToWebOptions)
    (* [async (c, next) => toWebResponse(await handler(c, { head, next }), 200, resOptions)] *)
| CloNotFound (notFoundHandler : PreservedHandler) (resOptions : ToWebOptions)
    (* [(c) => toWebResponse(notFoundHandler(c, { head }), 404, resOptions)] *)
| CloError (errorHandler : PreservedHandler) (resOptions : ToWebOptions).
    (* [(error, c) => toWebResponse(errorHandler(c, { error, head }), 500, resOptions)] *)

(** ** Router calls

    The router is [hono]; an installation is recorded as the calls made on
    the sub-router of a directory and on the outermost router, in order. *)
Inductive SubCall :=
| SubRoute (path : string) (routeDefault : MountedApp)
    (* [subApp.route(path, routeDefault)] *)
| SubGet (path : string) (h : Closure)
    (* [subApp.get(path, h)] *)
| SubOn (method path : string) (h : Closure)
    (* [subApp.on(method, path, h)] *)
| SubUseApp (path : string) (appHandler : APPHandler) (resOptions : ToWebOptions)
    (* [appHandler(subApp.use(path), { head, render })] *)
| SubOnError (h : Closure).
    (* [subApp.onError(h)] *)

(** [app.route] copies the routes its argument has at the time of the
    call: the call is recorded with the calls made on [subApp] so far. *)
Inductive AppCall :=
| AppRoute (rootPath : string) (subApp : list SubCall)
| AppNotFound (h : Closure)
| AppOnError (h : Closure).

Record ServerOptions := {
  opt_PRESERVED : JsObject PreservedHandler;
  opt_LAYOUTS : JsObject LayoutHandler;
  opt_ROUTES : JsObject RouteFile;
  opt_root : option string;
  opt_createHead : option (nat → Head);  (* the result of its n-th call *)
  opt_app : option (list AppCall)        (* a router to extend *)
}.

Definition NOTFOUND_FILENAME := "_404.tsx".
Definition ERROR_FILENAME := "_error.tsx".

(** ** [createApp] *)

Section CreateApp.

Variable options : ServerOptions.

Definition PRESERVED := opt_PRESERVED options.
Definition preservedMap := groupByDirectory _ PRESERVED.
Definition LAYOUTS := opt_LAYOUTS options.
Definition layoutList := listByDirectory _ LAYOUTS.
Definition ROUTES := opt_ROUTES options.
Definition routesMap := groupByDirectory _ ROUTES.
Definition root := default "/app/routes" (opt_root options).

(** The [for (const path of layouts)] loop of [toWebResponse]. *)
Fixpoint apply_layouts (layouts : list string) (res : Node)
    (head : Head) (filename : string) : M Node :=
  match layouts with
  | [] => ret res
  | path :: layouts' =>
      match obj_get path LAYOUTS with
      | Some layout =>
          let* res := layout res head filename in
          apply_layouts layouts' res head filename
      | None => apply_layouts layouts' res head filename
      end
  end.

(** [return returnHtml(...)] in an [async] function: the response, or
    the rejection with what the constructor threw. *)
Definition construct (r : PlatformError + Response) : M Response :=
  match r with
  | inr response => ret response
  | inl e => throw (Platform e)
  end.

Definition toWebResponse (res : Content) (status : option Z)
    (o : ToWebOptions) : M Response :=
  let status := default 200%Z status in
  match res with
  | CResponse r => ret r
  | CNode res =>
      match o_layouts o with
      | Some ((_ :: _) as layouts) =>
          let layouts := LayoutSort.sort layouts in
          let* res := apply_layouts layouts res (o_head o) (o_filename o) in
          let html := render res in
          construct (returnHtml (addDocType html) status)
      | _ =>
          match obj_get (root +:+ "/_layout.tsx") LAYOUTS with
          | Some defaultLayout =>
              let* res := defaultLayout res (o_head o) (o_filename o) in
              let html := render res in
              construct (returnHtml (addDocType html) status)
          | None =>
              let html := render res in
              construct (returnHtml html status)
          end
      end
  end.

(** The bodies of the closures, called by the router with the context
    and [next]; only a method handler is handed [next]. The error
    argument is present only for an error interceptor. *)
Definition run_closure (h : Closure) (c : Ctx) (next : Next)
    (error : option (Exception Err)) : M Response :=
  match h with
  | CloComponent routeDefault resOptions =>
      let* res := routeDefault c (o_head resOptions) in
      toWebResponse res (Some 200%Z) resOptions
  | CloMethod handler resOptions =>
      let* res := handler c (o_head resOptions) next in
      toWebResponse res (Some 200%Z) resOptions
  | CloNotFound notFoundHandler resOptions =>
      let* res := notFoundHandler c None (o_head resOptions) in
      toWebResponse res (Some 404%Z) resOptions
  | CloError errorHandler resOptions =>
      let* res := errorHandler c error (o_head resOptions) in
      toWebResponse res (Some 500%Z) resOptions
  end.

(** [render: (node, status) => toWebResponse(node, status, resOptions)] *)
Definition render_callback (resOptions : ToWebOptions) : RenderCallback :=
  λ node status, toWebResponse node status resOptions.

(** [getLayoutPaths]: it leaves its result in [layouts]. The recursion
    is on the length of [paths], which [pop] decreases. *)
Fixpoint getLayoutPaths_rec (n : nat) (paths : list string)
    : option (list string) :=
  match layoutList !! Path.join paths with
  | Some layouts => Some layouts
  | None =>
      let paths := removelast paths in
      match paths, n with
      | _ :: _, S n' => getLayoutPaths_rec n' paths
      | _, _ => None
      end
  end.

Definition getLayoutPaths (paths : list string) : option (list string) :=
  getLayoutPaths_rec (length paths) paths.

(** [let layouts = layoutList[dir]; if (!layouts) getLayoutPaths(dir.split('/'))] *)
Definition resolve_layouts (dir : string) : option (list string) :=
  match layoutList !! dir with
  | Some layouts => Some layouts
  | None => getLayoutPaths (Path.split dir)
  end.

(** [options.createHead ? options.createHead() : new Head(...)], for the
    [n]-th render context of the installation. A [new Head] is a fresh
    object. *)
Definition new_head (n : nat) : Head :=
  match opt_createHead options with
  | Some createHead => createHead n
  | None => n
  end.

(** One turn of [for (const [method, handler] of Object.entries(routeDefault))]. *)
Definition install_entry (path : string) (resOptions : ToWebOptions)
    (subApp : list SubCall) (entry : string * option Member)
    : list SubCall :=
  let '(method, handler) := entry in
  if String.eqb method "APP" then
    match handler with
    | Some appHandler =>
        subApp ++ [SubUseApp path (as_app appHandler) resOptions]
    | None => subApp
    end
  else
    match handler with
    | Some handler =>
        subApp ++ [SubOn method path (CloMethod (as_handler handler) resOptions)]
    | None => subApp
    end.

(** One turn of [for (const [preservedDir, content] of Object.entries(preservedMap))]. *)
Definition install_preserved (dir : string) (resOptions : ToWebOptions)
    (subApp : list SubCall) (entry : string * JsObject PreservedHandler)
    : list SubCall :=
  let '(preservedDir, content) := entry in
  if negb (String.eqb dir root) && String.eqb dir preservedDir then
    let subApp :=
      match obj_get NOTFOUND_FILENAME content with
      | Some notFoundHandler =>
          subApp ++ [SubGet "*" (CloNotFound notFoundHandler resOptions)]
      | None => subApp
      end in
    match obj_get ERROR_FILENAME content with
    | Some errorHandler =>
        subApp ++ [SubOnError (CloError errorHandler resOptions)]
    | None => subApp
    end
  else subApp.

(** The state of the installation loops: the calls made on the sub-router
    of the directory, the calls made on the outermost router, and the
    number of render contexts created so far. *)
Record Installation := {
  st_subApp : list SubCall;
  st_app : list AppCall;
  st_heads : nat
}.

(** One turn of [for (const [filename, route] of Object.entries(content))]. *)
Definition install_file (dir : string) (layouts : option (list string))
    (st : Installation) (entry : string * RouteFile) : Installation :=
  let '(filename, route) := entry in
  match route with
  | None => st
  | Some routeDefault =>
      let path := filePathToPath filename in
      let rootPath := Path.rootPath regexp_replace root dir in
      match rd_fetch routeDefault with
      | Some mounted =>
          let subApp := st_subApp st ++ [SubRoute path mounted] in
          {| st_subApp := subApp;
             st_app := st_app st ++ [AppRoute rootPath subApp];
             st_heads := st_heads st |}
      | None =>
          let head := new_head (st_heads st) in
          let resOptions :=
            {| o_head := head; o_layouts := layouts; o_filename := filename |} in
          let subApp :=
            match rd_call routeDefault with
            | Some fc => st_subApp st ++ [SubGet path (CloComponent fc resOptions)]
            | None => st_subApp st
            end in
          let subApp :=
            fold_left (install_entry path resOptions)
                      (rd_entries routeDefault) subApp in
          let subApp :=
            fold_left (install_preserved dir resOptions) preservedMap subApp in
          {| st_subApp := subApp;
             st_app := st_app st ++ [AppRoute rootPath subApp];
             st_heads := S (st_heads st) |}
      end
  end.

(** One turn of [for (const [dir, content] of Object.entries(routesMap))]. *)
Definition install_dir (st : Installation)
    (entry : string * JsObject RouteFile) : Installation :=
  let '(dir, content) := entry in
  let layouts := resolve_layouts dir in
  fold_left (install_file dir layouts) content
            {| st_subApp := []; st_app := st_app st; st_heads := st_heads st |}.

(** The root-level preserved files, installed after the loops. *)
Definition install_default (st : Installation) : list AppCall :=
  let head := new_head (st_heads st) in
  match obj_get root preservedMap with
  | Some content =>
      let app :=
        match obj_get NOTFOUND_FILENAME content with
        | Some notFoundHandler =>
            st_app st ++ [AppNotFound (CloNotFound notFoundHandler
              {| o_head := head; o_layouts := None; o_filename := NOTFOUND_FILENAME |})]
        | None => st_app st
        end in
      match obj_get ERROR_FILENAME content with
      | Some errorHandler =>
          app ++ [AppOnError (CloError errorHandler
            {| o_head := head; o_layouts := None; o_filename := ERROR_FILENAME |})]
      | None => app
      end
  | None => st_app st
  end.

Definition install_routes : Installation :=
  fold_left install_dir routesMap
    {| st_subApp := []; st_app := default [] (opt_app options); st_heads := 0 |}.

Definition createApp : list AppCall :=
  install_default install_routes.

End CreateApp.

(** ** The router, as far as the installation relies on it

    Modelled from the spec: [hono] is a dependency whose code is not part
    of the sources; this is the contract of the spec's base router
    abstraction (mount a sub-router at a prefix, register a handler for a
    method and a path, register a catch-all, register an error
    interceptor) and of its fault taxonomy (a request that matches no
    route goes to the not-found handler; a fault goes to the error
    interceptor of the sub-router that owns the route, else to the one of
    the outermost router, else to the router's default). Path patterns are
    left to the path-matching engine, a parameter. The router calls a
    handler with the request context and [next]. *)

Section Router.

Variable options : ServerOptions.

(** Does a registered pattern accept a request path? *)
Variable path_match : string → string → bool.

(** The pattern of a route of a sub-router mounted at a prefix. *)
Variable mergePath : string → string → string.

(** What a route runs. *)
Inductive Target :=
| TClosure (h : Closure)
| TUser (h : Ctx → Next → M Response).

Record Route := {
  r_method : string;
  r_path : string;
  r_target : Target;
  r_onError : option Closure  (* the interceptor of the owning sub-router *)
}.

Definition user_route (r : UserRoute) : Route :=
  let '(method, path, h) := r in
  {| r_method := method; r_path := path;
     r_target := TUser h; r_onError := None |}.

(** A route of a router that is mounted at a prefix. *)
Definition under (prefix : string) (r : Route) : Route :=
  {| r_method := r_method r; r_path := mergePath prefix (r_path r);
     r_target := r_target r; r_onError := r_onError r |}.

(** Modelled from the spec: the routes a call adds to the sub-router
    ('register-handler-for-method-and-path', 'register-catch-all'; a
    mounted router brings its routes under the path it is mounted at). *)
Definition call_routes (call : SubCall) : list Route :=
  match call with
  | SubRoute path routeDefault => under path ∘ user_route <$> routeDefault
  | SubGet path h =>
      [{| r_method := "GET"; r_path := path;
          r_target := TClosure h; r_onError := None |}]
  | SubOn method path h =>
      [{| r_method := method; r_path := path;
          r_target := TClosure h; r_onError := None |}]
  | SubUseApp path appHandler resOptions =>
      user_route <$>
        appHandler (o_head resOptions) (render_callback options resOptions)
  | SubOnError _ => []
  end.

Definition sub_routes (subApp : list SubCall) : list Route :=
  subApp ≫= call_routes.

(** The last interceptor registered on the sub-router. *)
Fixpoint sub_onError (subApp : list SubCall) : option Closure :=
  match subApp with
  | [] => None
  | call :: subApp' =>
      match sub_onError subApp' with
      | Some h => Some h
      | None => match call with SubOnError h => Some h | _ => None end
      end
  end.

(** Modelled from the spec: [app.route(rootPath, subApp)]
    ('mount-sub-router-at-prefix'), the routes of [subApp] under the
    prefix, guarded by the interceptor [subApp] has at that time. *)
Definition mount (rootPath : string) (subApp : list SubCall) : list Route :=
  (λ r, {| r_method := r_method r; r_path := mergePath rootPath (r_path r);
           r_target := r_target r; r_onError := sub_onError subApp |})
  <$> sub_routes subApp.

Definition app_routes (app : list AppCall) : list Route :=
  app ≫= λ call,
    match call with
    | AppRoute rootPath subApp => mount rootPath subApp
    | _ => []
    end.

Fixpoint app_notFound (app : list AppCall) : option Closure :=
  match app with
  | [] => None
  | call :: app' =>
      match app_notFound app' with
      | Some h => Some h
      | None => match call with AppNotFound h => Some h | _ => None end
      end
  end.

Fixpoint app_onError (app : list AppCall) : option Closure :=
  match app with
  | [] => None
  | call :: app' =>
      match app_onError app' with
      | Some h => Some h
      | None => match call with AppOnError h => Some h | _ => None end
      end
  end.

Definition route_accepts (method path : string) (r : Route) : bool :=
  String.eqb (r_method r) method && path_match (r_path r) path.

(** Modelled from the spec: a route serves the requests of its method
    whose path its pattern accepts, and the first registered route that
    accepts a request serves it. *)
Definition match_route (app : list AppCall) (method path : string)
    : option Route :=
  find (route_accepts method path) (app_routes app).

(** The call of a handler by the router, with the context and [next]. *)
Definition run_target (t : Target) (c : Ctx) (next : Next) : M Response :=
  match t with
  | TClosure h => run_closure options h c next None
  | TUser h => h c next
  end.

(** A not-found handler and an error interceptor are not handed a
    [next] that leads anywhere. *)
Definition no_next : Next := ret tt.

Definition intercept (onError : option Closure) (c : Ctx)
    (m : M Response) : M Response :=
  match onError with
  | Some h => catch m (λ error, run_closure options h c no_next (Some error))
  | None => m
  end.

(** The [next] that the router hands to the handler of the route that
    serves a request. What calling it does is the router's business,
    which the spec's router abstraction does not describe: a
    parameter. *)
Variable next_of : list AppCall → string → string → Ctx → Next.

(** Modelled from the spec: a request ('No-match fault', 'Handler
    fault'). [None] is the default not-found answer of the router; an
    exception that no interceptor takes is the router's default fault.
    The answer is the response that the handler of the serving route
    returns. *)
Definition dispatch (app : list AppCall) (method path : string) (c : Ctx)
    : M (option Response) :=
  match match_route app method path with
  | Some r =>
      let* res :=
        intercept (app_onError app) c
          (intercept (r_onError r) c
             (run_target (r_target r) c (next_of app method path c))) in
      ret (Some res)
  | None =>
      match app_notFound app with
      | Some h =>
          let* res :=
            intercept (app_onError app) c
              (run_closure options h c no_next None) in
          ret (Some res)
      | None => ret None
      end
  end.

End Router.

End Server.

(** ** A concrete instance

    Content is markup text, a request context is the number of the
    request, an exception is a message, and the world is the list of the
    render contexts that user code has been handed, latest last. *)

Module Example.

(** The name of a file without its extension, and the name of a dynamic
    segment without its closing bracket. *)
Fixpoint stem (s : string) : string :=
  match s with
  | EmptyString => ""
  | String c s' => if Ascii.eqb c "."%char then "" else String c (stem s')
  end.

Fixpoint param (s : string) : string :=
  match s with
  | EmptyString => ""
  | String c s' => if Ascii.eqb c "]"%char then "" else String c (param s')
  end.

(** Modelled from the spec: [filePathToPath] of [../utils/file.js], which
    is not part of the sources. 'Compute the URL path from the filename
    using the file-naming convention (e.g., an index file maps to [/],
    dynamic segment markers in the filename map to path parameters)'. *)
Definition filePathToPath (filename : string) : string :=
  match stem filename with
  | "index" => "/"
  | String "["%char s => "/:" +:+ param s
  | s => "/" +:+ s
  end.

(** The file [fileName] added to the entry of [directory]. *)
Fixpoint obj_add {A} (directory fileName : string) (content : A)
    (o : JsObject (JsObject A)) : JsObject (JsObject A) :=
  match o with
  | [] => [(directory, [(fileName, content)])]
  | (d, files) :: o' =>
      if String.eqb d directory then (d, files ++ [(fileName, content)]) :: o'
      else (d, files) :: obj_add directory fileName content o'
  end.

(** Modelled from the spec: [groupByDirectory] of [../utils/file.js], which
    is not part of the sources. 'Group by the path's containing directory
    (path minus final segment)', each file 'keyed by its exact filename'. *)
Definition groupByDirectory (A : Type) (files : JsObject A)
    : JsObject (JsObject A) :=
  fold_left
    (λ organized '(path, content),
       let parts := Path.split path in
       obj_add (Path.join (removelast parts)) (List.last parts "") content
               organized)
    files [].

(** The containing directory of a file. *)
Definition directory (path : string) : string :=
  Path.join (removelast (Path.split path)).

(** Modelled from the spec: [listByDirectory] of [../utils/file.js], which
    is not part of the sources. 'An ordered list of applicable layout
    paths' of a directory: the layout files of the directory and of the
    directories above it. *)
Definition listByDirectory (A : Type) (files : JsObject A)
    : gmap string (list string) :=
  list_to_map
    ((λ '(path, _),
        (directory path,
         filter (λ q, Path.stripRoot (directory q) (directory path) ≠ None)
                files.*1))
     <$> files).

(** An instance of the path-matching engine: a pattern is a literal
    path, or ends in a star that stands for any rest. *)
Fixpoint path_match (pattern path : string) : bool :=
  match pattern, path with
  | "*", _ => true
  | EmptyString, EmptyString => true
  | String a pattern', String b path' =>
      Ascii.eqb a b && path_match pattern' path'
  | _, _ => false
  end.

(** An instance of the joining of a mount prefix and a pattern: a
    sub-router mounted at [/a] serves [/a] for its pattern [/]. *)
Definition mergePath (prefix path : string) : string :=
  match prefix, path with
  | EmptyString, _ => path
  | _, "/" => prefix
  | _, "*" => prefix +:+ "/*"
  | _, _ => prefix +:+ path
  end.

(** No example has a root with syntax characters: the engine is not
    consulted. *)
Definition regexp_replace (source subject : string) : string := subject.

Definition Node := string.
Definition Ctx := nat.
Definition Err := string.
Definition World := list Head.

#[local] Abbreviation FC := (@FC Node Ctx Err World).
#[local] Abbreviation PreservedHandler := (@PreservedHandler Node Ctx Err World).
#[local] Abbreviation LayoutHandler := (@LayoutHandler Node Err World).
#[local] Abbreviation MountedApp := (@MountedApp Ctx Err World).
#[local] Abbreviation RouteFile := (@RouteFile Node Ctx Err World).
#[local] Abbreviation ServerOptions := (@ServerOptions Node Ctx Err World).
#[local] Abbreviation AppCall := (@AppCall Node Ctx Err World).

Definition render (n : Node) : string := n.

(** A component that returns fixed markup and records the render context
    it was handed. *)
Definition page (markup : string) : FC :=
  λ _ head w, (Ok (CNode markup), w ++ [head]).

(** A preserved handler that returns fixed markup. *)
Definition preserved (markup : string) : PreservedHandler :=
  λ _ _ head w, (Ok (CNode markup), w ++ [head]).

(** A layout that wraps its children in an element. *)
Definition wrap (tag : string) : LayoutHandler :=
  λ children _ _ w,
    (Ok ("<" +:+ tag +:+ ">" +:+ children +:+ "</" +:+ tag +:+ ">"), w).

#[local] Abbreviation RouteDefault := (@RouteDefault Node Ctx Err World).

Definition function (fc : FC) : RouteDefault :=
  {| rd_fetch := None; rd_call := Some fc; rd_entries := [] |}.

Definition component (fc : FC) : RouteFile := Some (function fc).

(** A router of its own with one route. *)
Definition api : MountedApp :=
  [("GET", "/", λ _ _ w,
      (Ok {| status := 200; headers := []; body := "pong" |}, w))].

Definition router (routes : MountedApp) : RouteDefault :=
  {| rd_fetch := Some routes; rd_call := None; rd_entries := [] |}.

Definition mounted (routes : MountedApp) : RouteFile := Some (router routes).

Definition options_of (PRESERVED : JsObject PreservedHandler)
    (LAYOUTS : JsObject LayoutHandler) (ROUTES : JsObject RouteFile)
    : ServerOptions :=
  {| opt_PRESERVED := PRESERVED; opt_LAYOUTS := LAYOUTS;
     opt_ROUTES := ROUTES; opt_root := None; opt_createHead := None;
     opt_app := None |}.

(** [a] and [a/b] each own a layout; the route lives in [a/b]. *)
Definition nested : ServerOptions :=
  options_of []
    [("/app/routes/a/_layout.tsx", wrap "A");
     ("/app/routes/a/b/_layout.tsx", wrap "B")]
    [("/app/routes/a/b/index.tsx", component (page "hello"))].

(** Two pages in a directory that has a not-found page. *)
Definition two_pages : ServerOptions :=
  options_of
    [("/app/routes/a/_404.tsx", preserved "missing")]
    []
    [("/app/routes/a/first.tsx", component (page "first"));
     ("/app/routes/a/second.tsx", component (page "second"))].

(** A directory with a not-found page whose only route file is a router. *)
Definition only_mounted : ServerOptions :=
  options_of
    [("/app/routes/api/_404.tsx", preserved "missing")]
    []
    [("/app/routes/api/index.ts", mounted api)].

(** A page that throws, in a directory with an error page, under a root
    with an error page. *)
Definition broken (message : string) : FC :=
  λ _ head w, (Throw (Raised message), w ++ [head]).

Definition failing : ServerOptions :=
  options_of
    [("/app/routes/_error.tsx", preserved "root error");
     ("/app/routes/a/_error.tsx", preserved "a error")]
    []
    [("/app/routes/a/boom.tsx", component (broken "boom"))].

Definition create (options : ServerOptions) : list AppCall :=
  createApp filePathToPath groupByDirectory listByDirectory regexp_replace
            options.

(** No handler of the examples calls [next]. *)
Definition next_of (app : list AppCall) (method path : string) (c : Ctx)
    : @Next Err World :=
  ret tt.

Definition request (options : ServerOptions) (method path : string)
    (c : Ctx) : M World Err (option Response) :=
  dispatch render options path_match mergePath next_of (create options)
           method path c.

(** The render contexts that user code is handed while one request is
    served, starting from an empty record. *)
Definition handed (options : ServerOptions) (method path : string)
    (c : Ctx) : list Head :=
  (request options method path c []).2.

End Example.

(** ** Vocabulary of the statements *)

Section Vocabulary.

Context {Node Ctx Err World : Type}.

#[local] Abbreviation Closure := (@Closure Node Ctx Err World).
#[local] Abbreviation SubCall := (@SubCall Node Ctx Err World).
#[local] Abbreviation LayoutHandler := (@LayoutHandler Node Err World).

(** The options a closure renders with. *)
Definition closure_options (h : Closure) : ToWebOptions :=
  match h with
  | CloComponent _ o | CloMethod _ o | CloNotFound _ o | CloError _ o => o
  end.

(** The render context a closure hands to user code and to the layouts. *)
Definition closure_head (h : Closure) : Head := o_head (closure_options h).

(** The call of user code a closure makes. *)
Definition closure_call (h : Closure) (c : Ctx) (next : @Next Err World)
    (error : option (Exception Err)) : M World Err (@Content Node) :=
  match h with
  | CloComponent routeDefault o => routeDefault c (o_head o)
  | CloMethod handler o => handler c (o_head o) next
  | CloNotFound notFoundHandler o => notFoundHandler c None (o_head o)
  | CloError errorHandler o => errorHandler c error (o_head o)
  end.

(** The status a closure renders with. *)
Definition closure_status (h : Closure) : Z :=
  match h with
  | CloComponent _ _ | CloMethod _ _ => 200
  | CloNotFound _ _ => 404
  | CloError _ _ => 500
  end.

(** A computation that ends without an exception, whatever the world. *)
Definition returns {A} (m : M World Err A) : Prop :=
  ∀ w, ∃ a w', m w = (Ok a, w').

(** No layout throws. *)
Definition layouts_return (LAYOUTS : JsObject LayoutHandler) : Prop :=
  Forall (λ entry, ∀ children head filename,
            returns (entry.2 children head filename)) LAYOUTS.

(** The header of a markup response. *)
Definition html_headers : list (string * string) :=
  [("Content-Type", "text/html; charset=utf-8")].

(** A call that registers a handler of a route file, and a call that
    installs a preserved file of the directory. *)
Definition is_preserved_call (call : SubCall) : bool :=
  match call with
  | SubGet _ (CloNotFound _ _) | SubOnError _ => true
  | _ => false
  end.

Definition is_route_call (call : SubCall) : bool :=
  negb (is_preserved_call call).

(** The render context that a call captures, if it captures one. *)
Definition call_head (call : SubCall) : option Head :=
  match call with
  | SubRoute _ _ => None
  | SubGet _ h | SubOn _ _ h | SubOnError h => Some (closure_head h)
  | SubUseApp _ _ o => Some (o_head o)
  end.

(** The options of the closures of one route file: [resOptions]. *)
Definition file_options (options : @ServerOptions Node Ctx Err World)
    (layouts : option (list string)) (heads : nat) (filename : string)
    : ToWebOptions :=
  {| o_head := new_head options heads; o_layouts := layouts;
     o_filename := filename |}.

(** The calls that one route file makes for its own handlers, and the
    calls that install the preserved files of its directory. *)
Definition route_calls (path : string) (resOptions : ToWebOptions)
    (routeDefault : @RouteDefault Node Ctx Err World) : list SubCall :=
  match rd_call routeDefault with
  | Some fc => [SubGet path (CloComponent fc resOptions)]
  | None => []
  end ++ fold_left (install_entry path resOptions) (rd_entries routeDefault) [].

Definition preserved_calls
    (preservedMap : JsObject (JsObject (@PreservedHandler Node Ctx Err World)))
    (options : @ServerOptions Node Ctx Err World)
    (dir : string) (resOptions : ToWebOptions) : list SubCall :=
  fold_left (install_preserved options dir resOptions) preservedMap [].

(** A default export that is a function and nothing else. *)
Definition plain_component (routeDefault : @RouteDefault Node Ctx Err World)
    : Prop :=
  rd_fetch routeDefault = None ∧ is_Some (rd_call routeDefault)
  ∧ rd_entries routeDefault = [].

(** An installation all of whose routes so far are GET routes. *)
Definition only_get (render : Node → string)
    (options : @ServerOptions Node Ctx Err World)
    (mergePath : string → string → string)
    (st : @Installation Node Ctx Err World) : Prop :=
  Forall (λ r, r_method r = "GET")
         (sub_routes render options mergePath (st_subApp st))
  ∧ Forall (λ r, r_method r = "GET")
           (app_routes render options mergePath (st_app st)).

End Vocabulary.

(** ** Further vocabulary *)

Section Census.

Context {Node Ctx Err World : Type}.

#[local] Abbreviation SubCall := (@SubCall Node Ctx Err World).
#[local] Abbreviation AppCall := (@AppCall Node Ctx Err World).
#[local] Abbreviation RouteFile := (@RouteFile Node Ctx Err World).

(** A route file with a default export, and one whose default export has
    no [fetch] member: the files that get a mount, and the files that get
    a render context. *)
Definition has_default (entry : string * RouteFile) : bool :=
  match entry.2 with
  | Some _ => true
  | None => false
  end.

Definition installable (entry : string * RouteFile) : bool :=
  match entry.2 with
  | Some routeDefault =>
      match rd_fetch routeDefault with
      | Some _ => false
      | None => true
      end
  | None => false
  end.

(** The options that a call captures, if it captures any. *)
Definition call_options (call : SubCall) : option ToWebOptions :=
  match call with
  | SubRoute _ _ => None
  | SubGet _ h | SubOn _ _ h | SubOnError h => Some (closure_options h)
  | SubUseApp _ _ o => Some o
  end.

(** The method of a [subApp.on] call. *)
Definition on_method (call : SubCall) : option string :=
  match call with
  | SubOn method _ _ => Some method
  | _ => None
  end.

(** The members of a route object that are defined and are not under the
    key ['APP']. *)
Definition method_member {A} (entry : string * option A) : bool :=
  match entry.2 with
  | Some _ => negb (String.eqb entry.1 "APP")
  | None => false
  end.

Definition is_mount (call : AppCall) : bool :=
  match call with
  | AppRoute _ _ => true
  | _ => false
  end.

(** A call made so far on the sub-router of some directory: on the one
    under construction, or on one that has been mounted. *)
Definition captured (st : @Installation Node Ctx Err World)
    (call : SubCall) : Prop :=
  call ∈ st_subApp st
  ∨ ∃ rootPath subApp, AppRoute rootPath subApp ∈ st_app st ∧ call ∈ subApp.

(** Render contexts created in order: every captured one is older than
    the next to be created, and calls that capture the same render
    context capture the same options. *)
Definition heads_fresh (st : @Installation Node Ctx Err World) : Prop :=
  (∀ call o, captured st call → call_options call = Some o →
             o_head o < st_heads st)
  ∧ (∀ call1 call2 o1 o2,
       captured st call1 → captured st call2 →
       call_options call1 = Some o1 → call_options call2 = Some o2 →
       o_head o1 = o_head o2 → o1 = o2).

End Census.

(** ** The Vite plugin: [packages/sonik/src/vite/index.ts] *)

Module Vite.

(** [SonikOptions]; every member is optional. *)
Record SonikOptions := {
  minify : option bool;
  islands : option bool;
  entry : option string
}.

(** The plugins that [sonik] chooses from. *)
Inductive PluginOption :=
| devServer (entry : string)   (* [devServer({ entry })] *)
| minifyEs                     (* [minifyEs()] *)
| islandComponents.            (* [islandComponents()] *)

(** [sonik(options?)]. [defaultEntryPath] is
    [path.join(process.cwd(), './app/server.ts')]. *)
Definition sonik (defaultEntryPath : string) (options : option SonikOptions)
    : list PluginOption :=
  let plugins := [] in
  let plugins :=
    plugins ++ [devServer (default defaultEntryPath (options ≫= entry))] in
  let plugins :=
    match options ≫= minify with
    | Some true => plugins ++ [minifyEs]
    | _ => plugins
    end in
  let plugins :=
    match options ≫= islands with
    | Some false => plugins
    | _ => plugins ++ [islandComponents]
    end in
  plugins.

End Vite.

(** ** Further concrete cases *)

Module Cases.

#[local] Abbreviation LayoutHandler :=
  (@LayoutHandler Example.Node Example.Err Example.World).
#[local] Abbreviation Handler :=
  (@Handler Example.Node Example.Ctx Example.Err Example.World).
#[local] Abbreviation Member :=
  (@Member Example.Node Example.Ctx Example.Err Example.World).
#[local] Abbreviation RouteDefault :=
  (@RouteDefault Example.Node Example.Ctx Example.Err Example.World).
#[local] Abbreviation ServerOptions :=
  (@ServerOptions Example.Node Example.Ctx Example.Err Example.World).

(** A layout that throws. *)
Definition torn (message : string) : LayoutHandler :=
  λ _ _ _ w, (Throw (Raised message), w).

(** The layout of [a] throws; the layout of [a/b] wraps. *)
Definition torn_outer : ServerOptions :=
  Example.options_of []
    [("/app/routes/a/_layout.tsx", torn "torn");
     ("/app/routes/a/b/_layout.tsx", Example.wrap "B")]
    [("/app/routes/a/b/index.tsx", Example.component (Example.page "hello"))].

(** The root has a layout; the chain names a file that is no layout. *)
Definition rooted : ServerOptions :=
  Example.options_of []
    [("/app/routes/_layout.tsx", Example.wrap "R")]
    [("/app/routes/index.tsx", Example.component (Example.page "home"))].

(** The directory [a] has a layout; the directory [c] and the root have
    none. *)
Definition sided : ServerOptions :=
  Example.options_of []
    [("/app/routes/a/_layout.tsx", Example.wrap "A")]
    [("/app/routes/a/index.tsx", Example.component (Example.page "inner"));
     ("/app/routes/c/page.tsx", Example.component (Example.page "outer"))].


(** A member of a route object that returns fixed markup. *)
Definition member (markup : string) : Member :=
  {| as_handler := λ _ head _ w, (Ok (CNode markup), w ++ [head]);
     as_app := λ _ _, [] |}.

(** A route object with a [GET] member, an undefined [PUT] member and a
    [POST] member. *)
Definition form : RouteDefault :=
  {| rd_fetch := None; rd_call := None;
     rd_entries := [("GET", Some (member "form")); ("PUT", None);
                    ("POST", Some (member "sent"))] |}.

(** A page at the root and a page in a directory, without preserved
    files. *)
Definition plain : ServerOptions :=
  Example.options_of [] []
    [("/app/routes/index.tsx", Example.component (Example.page "home"));
     ("/app/routes/a/about.tsx", Example.component (Example.page "about"));
     ("/app/routes/a/empty.tsx", None)].

End Cases.

(** * Properties *)

(** ** Paths *)

Lemma split_not_nil (s : string) : Path.split s ≠ [].
Proof.
  induction s as [|c s IH]; simpl; [done|].
  destruct (Ascii.eqb c Path.slash); [done|].
  by destruct (Path.split s).
Qed.

Lemma join_cons (p : string) (rest : list string) :
  rest ≠ [] → Path.join (p :: rest) = p +:+ "/" +:+ Path.join rest.
Proof. by destruct rest. Qed.

(** [s.split('/').join('/')] is [s]: the first lookup of [getLayoutPaths]
    is the lookup of the directory itself. *)
Lemma join_split (s : string) : Path.join (Path.split s) = s.
Proof.
  induction s as [|c s IH]; [done|].
  simpl Path.split. destruct (Ascii.eqb_spec c Path.slash) as [->|Hc].
  - rewrite join_cons by apply split_not_nil. by rewrite IH.
  - pose proof (split_not_nil s) as Hne.
    destruct (Path.split s) as [|h t]; [done|].
    rewrite <- IH. destruct t as [|h' t]; [done|].
    change (Path.join (String c h :: h' :: t))
      with (String c h +:+ "/" +:+ Path.join (h' :: t)).
    change (Path.join (h :: h' :: t))
      with (h +:+ "/" +:+ Path.join (h' :: t)).
    done.
Qed.

Lemma split_slash_app (a b : string) :
  Path.split (a +:+ String Path.slash b) = Path.split a ++ Path.split b.
Proof.
  induction a as [|c a IH]; simpl.
  - reflexivity.
  - rewrite IH. destruct (Ascii.eqb c Path.slash); [done|].
    pose proof (split_not_nil a). by destruct (Path.split a).
Qed.

(** A name without a slash is one segment. *)
Lemma split_segment (name : string) :
  (∀ a b, name ≠ a +:+ "/" +:+ b) → Path.split name = [name].
Proof.
  induction name as [|c name IH]; intros Hno; [done|].
  simpl. destruct (Ascii.eqb_spec c Path.slash) as [->|Hc].
  - exfalso. by apply (Hno "" name).
  - rewrite IH; [done|]. intros a b ->. by apply (Hno (String c a) b).
Qed.

Lemma removelast_snoc {A} (l : list A) (x : A) : removelast (l ++ [x]) = l.
Proof.
  induction l as [|y l IH]; [done|].
  simpl. rewrite IH. by destruct l.
Qed.

(** ** The order of the layout chain *)

Lemma insert_perm (x : string) (l : list string) :
  Permutation (LayoutSort.insert x l) (x :: l).
Proof.
  induction l as [|y l IH]; simpl; [done|].
  destruct (Nat.ltb _ _); [|done].
  rewrite IH. apply perm_swap.
Qed.

Lemma sort_perm (l : list string) : Permutation (LayoutSort.sort l) l.
Proof.
  induction l as [|x l IH]; simpl; [done|].
  by rewrite insert_perm, IH.
Qed.

Lemma insert_sorted (x : string) (l : list string) :
  StronglySorted LayoutSort.deeper_eq l →
  StronglySorted LayoutSort.deeper_eq (LayoutSort.insert x l).
Proof.
  unfold LayoutSort.deeper_eq.
  induction l as [|y l IH]; simpl; intros Hs.
  - repeat constructor.
  - apply StronglySorted_inv in Hs as [Hs Hy].
    destruct (Nat.ltb_spec (Path.segments x) (Path.segments y)) as [Hlt|Hge].
    + constructor; [by apply IH|].
      rewrite insert_perm. constructor; [lia|done].
    + constructor; [by constructor|].
      constructor; [done|].
      eapply Forall_impl; [exact Hy|]. simpl. intros; lia.
Qed.

Lemma sort_sorted (l : list string) :
  StronglySorted LayoutSort.deeper_eq (LayoutSort.sort l).
Proof.
  induction l as [|x l IH]; simpl; [constructor|by apply insert_sorted].
Qed.

Lemma insert_stable (k : nat) (x : string) (l : list string) :
  StronglySorted LayoutSort.deeper_eq l →
  LayoutSort.with_segments k (LayoutSort.insert x l)
  = LayoutSort.with_segments k (x :: l).
Proof.
  unfold LayoutSort.with_segments, LayoutSort.deeper_eq.
  induction l as [|y l IH]; simpl; intros Hs; [done|].
  apply StronglySorted_inv in Hs as [Hs Hy].
  destruct (Nat.ltb_spec (Path.segments x) (Path.segments y)) as [Hlt|Hge];
    [|done].
  rewrite !filter_cons in *. rewrite IH by done.
  repeat case_decide; try done; lia.
Qed.

Lemma sort_stable (k : nat) (l : list string) :
  LayoutSort.with_segments k (LayoutSort.sort l)
  = LayoutSort.with_segments k l.
Proof.
  induction l as [|x l IH]; simpl; [done|].
  rewrite insert_stable by apply sort_sorted.
  unfold LayoutSort.with_segments in *. rewrite !filter_cons, IH. done.
Qed.

Lemma insert_head (x : string) (l : list string) :
  Forall (λ y, Path.segments y <= Path.segments x) l →
  LayoutSort.insert x l = x :: l.
Proof.
  destruct l as [|y l]; simpl; [done|].
  intros [Hy _]%Forall_cons.
  destruct (Nat.ltb_spec (Path.segments x) (Path.segments y)); [lia|done].
Qed.

(** Sorting a sorted chain changes nothing: [sort] works in place on the
    array that every request of the directory shares, and the chain a
    later request finds is the one this request leaves. *)
Lemma sort_sorted_id (l : list string) :
  StronglySorted LayoutSort.deeper_eq l → LayoutSort.sort l = l.
Proof.
  induction l as [|x l IH]; simpl; [done|].
  intros [Hs Hx]%StronglySorted_inv.
  rewrite IH by done. by apply insert_head.
Qed.

Lemma sort_idempotent (l : list string) :
  LayoutSort.sort (LayoutSort.sort l) = LayoutSort.sort l.
Proof. apply sort_sorted_id, sort_sorted. Qed.

(** ** The monad *)

Section MonadFacts.

Context {World Err : Type}.

#[local] Abbreviation M := (M World Err).

Lemma bind_ok {A B} (m : M A) (k : A → M B) w a w' :
  m w = (Ok a, w') → bind m k w = k a w'.
Proof. unfold bind. by intros ->. Qed.

Lemma bind_throw {A B} (m : M A) (k : A → M B) w e w' :
  m w = (Throw e, w') → bind m k w = (Throw e, w').
Proof. unfold bind. by intros ->. Qed.

Lemma bind_inv_ok {A B} (m : M A) (k : A → M B) w b w'' :
  bind m k w = (Ok b, w'') →
  ∃ a w', m w = (Ok a, w') ∧ k a w' = (Ok b, w'').
Proof.
  unfold bind. destruct (m w) as [[a|e] w']; [eauto|done].
Qed.

Lemma returns_bind {A B} (m : M A) (k : A → M B) :
  returns m → (∀ a, returns (k a)) → returns (bind m k).
Proof.
  intros Hm Hk w. destruct (Hm w) as (a & w' & Ha).
  rewrite (bind_ok _ _ _ _ _ Ha). apply Hk.
Qed.

Lemma returns_ret {A} (a : A) : returns (ret a : M A).
Proof. intros w. by exists a, w. Qed.

End MonadFacts.

Lemma obj_get_In {A} (k : string) (o : JsObject A) (v : A) :
  obj_get k o = Some v → (k, v) ∈ o.
Proof.
  induction o as [|[k' v'] o IH]; simpl; [done|].
  destruct (String.eqb_spec k k') as [->|_].
  - intros [= ->]. left.
  - intros H. right. by apply IH.
Qed.

(** ** The [Response] constructor *)

Lemma unsigned_short_small (asked : Z) :
  (0 <= asked < 65536)%Z → unsigned_short asked = asked.
Proof. apply Z.mod_small. Qed.

Lemma accepted_status_range (asked : Z) :
  accepted_status asked = true →
  (200 <= unsigned_short asked <= 599)%Z
  ∧ null_body_status (unsigned_short asked) = false.
Proof.
  unfold accepted_status. cbv zeta.
  intros [[Hlo Hhi]%andb_prop Hnull%negb_true_iff]%andb_prop.
  split; [lia|done].
Qed.

Lemma accepted_status_in_range (asked : Z) :
  (200 <= asked <= 599)%Z → null_body_status asked = false →
  accepted_status asked = true ∧ unsigned_short asked = asked.
Proof.
  intros Hrange Hnull.
  assert (Hshort : unsigned_short asked = asked)
    by (apply unsigned_short_small; lia).
  split; [|done]. unfold accepted_status. cbv zeta. rewrite Hshort, Hnull.
  apply andb_true_intro. split; [|done].
  apply andb_true_intro. split; lia.
Qed.

Lemma new_Response_accepted (text : string) (asked : Z)
    (hs : list (string * string)) :
  accepted_status asked = true →
  new_Response text asked hs
  = inr {| status := unsigned_short asked; headers := hs; body := text |}.
Proof.
  unfold accepted_status, new_Response. cbv zeta.
  intros [Hrange Hnull%negb_true_iff]%andb_prop.
  by rewrite Hrange, Hnull.
Qed.

Lemma new_Response_refused (text : string) (asked : Z)
    (hs : list (string * string)) :
  accepted_status asked = false →
  ∃ e, new_Response text asked hs = inl e.
Proof.
  unfold accepted_status, new_Response. cbv zeta.
  destruct ((200 <=? unsigned_short asked)%Z
            && (unsigned_short asked <=? 599)%Z); simpl; [|by eexists].
  intros ->%negb_false_iff. by eexists.
Qed.

Lemma new_Response_inr (text : string) (asked : Z)
    (hs : list (string * string)) (r : Response) :
  new_Response text asked hs = inr r →
  accepted_status asked = true
  ∧ r = {| status := unsigned_short asked; headers := hs; body := text |}.
Proof.
  destruct (accepted_status asked) eqn:Haccepted.
  - rewrite new_Response_accepted by done. by intros [= <-].
  - destruct (new_Response_refused text asked hs Haccepted) as [e ->]. done.
Qed.

(** ** The Rendering Composer *)

Section ComposerFacts.

Context {Node Ctx Err World : Type}.
Variable render : Node → string.
Variable options : @ServerOptions Node Ctx Err World.

Lemma apply_layouts_returns layouts res head filename :
  layouts_return (LAYOUTS options) →
  returns (apply_layouts options layouts res head filename).
Proof.
  intros Hret. revert res.
  induction layouts as [|path layouts IH]; intros res; simpl.
  - apply returns_ret.
  - destruct (obj_get path (LAYOUTS options)) as [layout|] eqn:Hget; [|done].
    apply returns_bind; [|done].
    apply obj_get_In in Hget.
    unfold layouts_return in Hret. rewrite Forall_forall in Hret.
    apply (Hret _ Hget).
Qed.

Lemma construct_accepted (html : string) (asked : Z) :
  accepted_status asked = true →
  construct (returnHtml html asked)
  = (ret {| status := unsigned_short asked; headers := html_headers;
            body := html |} : M World Err Response).
Proof.
  intros Haccepted. unfold returnHtml.
  by rewrite new_Response_accepted.
Qed.

Lemma construct_inv (built : PlatformError + Response) (w : World) r w' :
  @construct Err World built w = (Ok r, w') → built = inr r ∧ w' = w.
Proof. destruct built as [e|r']; [done|]. by intros [= -> ->]. Qed.

(** The three ways in which [toWebResponse] ends for content: each
    serializes a node, after the layouts it goes through, and builds the
    response. *)
Lemma toWebResponse_shape n asked o :
  ∃ (m : M World Err Node) (doctype : string → string),
    toWebResponse render options (CNode n) asked o
    = (let* res := m in
       construct (returnHtml (doctype (render res)) (default 200%Z asked)))
    ∧ (layouts_return (LAYOUTS options) → returns m).
Proof.
  unfold toWebResponse.
  assert (Hdefault :
    ∃ (m : M World Err Node) (doctype : string → string),
      match obj_get (root options +:+ "/_layout.tsx") (LAYOUTS options) with
      | Some defaultLayout =>
          let* res := defaultLayout n (o_head o) (o_filename o) in
          construct (returnHtml (addDocType (render res))
                                (default 200%Z asked))
      | None => construct (returnHtml (render n) (default 200%Z asked))
      end
      = (let* res := m in
         construct (returnHtml (doctype (render res)) (default 200%Z asked)))
      ∧ (layouts_return (LAYOUTS options) → returns m)).
  { destruct (obj_get _ _) as [layout|] eqn:Hget.
    - eexists _, addDocType. split; [reflexivity|].
      intros Hret. apply obj_get_In in Hget.
      unfold layouts_return in Hret. rewrite Forall_forall in Hret.
      apply (Hret _ Hget).
    - exists (ret n), (λ html, html). split; [reflexivity|].
      intros _. apply returns_ret. }
  destruct (o_layouts o) as [[|p ps]|]; [done| |done].
  eexists _, addDocType. split; [reflexivity|].
  intros Hret. by apply apply_layouts_returns.
Qed.

(** A response is built whenever no layout throws and the constructor
    accepts the status. *)
Lemma toWebResponse_returns res asked o :
  layouts_return (LAYOUTS options) →
  accepted_status (default 200%Z asked) = true →
  returns (toWebResponse render options res asked o).
Proof.
  intros Hret Haccepted.
  destruct res as [n|r]; [|apply returns_ret].
  destruct (toWebResponse_shape n asked o) as (m & doctype & -> & Hm).
  apply returns_bind; [by apply Hm|].
  intros res. rewrite construct_accepted by done. apply returns_ret.
Qed.

(** What a response built from content looks like. *)
Lemma toWebResponse_content n asked o w r w' :
  toWebResponse render options (CNode n) asked o w = (Ok r, w') →
  accepted_status (default 200%Z asked) = true
  ∧ ∃ html, r = {| status := unsigned_short (default 200%Z asked);
                   headers := html_headers; body := html |}.
Proof.
  destruct (toWebResponse_shape n asked o) as (m & doctype & -> & _).
  intros (res & w1 & _ & Hbuilt)%bind_inv_ok.
  apply construct_inv in Hbuilt as [Hbuilt _].
  apply new_Response_inr in Hbuilt as [Haccepted ->]. eauto.
Qed.

(** A status that the constructor refuses: the layouts run and the
    constructor throws. *)
Lemma toWebResponse_refused n asked o w :
  layouts_return (LAYOUTS options) →
  accepted_status (default 200%Z asked) = false →
  ∃ e w', toWebResponse render options (CNode n) asked o w
          = (Throw (Platform e), w').
Proof.
  intros Hret Hrefused.
  destruct (toWebResponse_shape n asked o) as (m & doctype & -> & Hm).
  destruct (Hm Hret w) as (res & w' & Hres).
  rewrite (bind_ok _ _ _ _ _ Hres). unfold returnHtml.
  destruct (new_Response_refused (doctype (render res)) (default 200%Z asked)
              [("Content-Type", "text/html; charset=utf-8")] Hrefused)
    as [e ->].
  by exists e, w'.
Qed.

Lemma run_closure_call (h : @Closure Node Ctx Err World) c next error :
  run_closure render options h c next error
  = let* res := closure_call h c next error in
    toWebResponse render options res
      (Some (closure_status h)) (closure_options h).
Proof. by destruct h. Qed.

(** The answer of a closure whose user code returns content, when no
    layout throws: a markup response with the status of the closure. *)
Lemma run_closure_content (h : @Closure Node Ctx Err World) c next error
    w n w1 :
  layouts_return (LAYOUTS options) →
  closure_call h c next error w = (Ok (CNode n), w1) →
  ∃ html w',
    toWebResponse render options (CNode n) (Some (closure_status h))
      (closure_options h) w1
    = (Ok {| status := closure_status h; headers := html_headers;
             body := html |}, w')
    ∧ run_closure render options h c next error w
      = (Ok {| status := closure_status h; headers := html_headers;
               body := html |}, w').
Proof.
  intros Hret Hcall. rewrite run_closure_call, (bind_ok _ _ _ _ _ Hcall).
  assert (Haccepted : accepted_status (closure_status h) = true)
    by by destruct h.
  destruct (toWebResponse_returns (CNode n) (Some (closure_status h))
              (closure_options h) Hret Haccepted w1) as (r & w' & Hr).
  destruct (toWebResponse_content _ _ _ _ _ _ Hr) as (_ & html & Heq).
  assert (Hshort : unsigned_short (default 200%Z (Some (closure_status h)))
                   = closure_status h) by by destruct h.
  rewrite Hshort in Heq. subst r.
  exists html, w'. by rewrite Hr.
Qed.

Lemma sort_nested (pA pB : string) (chain : list string) :
  Path.segments pA < Path.segments pB →
  chain = [pA; pB] ∨ chain = [pB; pA] →
  LayoutSort.sort chain = [pB; pA].
Proof.
  intros Hlt [-> | ->]; simpl.
  - by destruct (Nat.ltb_spec (Path.segments pA) (Path.segments pB)); [|lia].
  - by destruct (Nat.ltb_spec (Path.segments pB) (Path.segments pA)); [lia|].
Qed.

(** C1 (Rendering Composer, explicit chain). With a non-empty layout chain
    and content to render, [toWebResponse] sorts the chain by descending
    segment count (a stable sort: a permutation of the chain, deepest
    first, paths of equal depth in their input order), passes the working
    value through the layouts in that order, serializes the result and
    prefixes the document preamble. For a chain that holds the layout of a
    directory and the layout of a directory nested in it, in either order,
    the body is the preamble followed by the serialization of the outer
    directory's layout applied to the inner directory's layout applied to
    the handler's result. *)
Theorem layout_chain_deepest_first :
  (∀ chain n status o w,
     o_layouts o = Some chain → chain ≠ [] →
     toWebResponse render options (CNode n) status o w
     = (let* res := apply_layouts options (LayoutSort.sort chain) n
                      (o_head o) (o_filename o) in
        construct (returnHtml (addDocType (render res)) (default 200%Z status))) w
     ∧ Permutation (LayoutSort.sort chain) chain
     ∧ StronglySorted LayoutSort.deeper_eq (LayoutSort.sort chain)
     ∧ ∀ k, LayoutSort.with_segments k (LayoutSort.sort chain)
            = LayoutSort.with_segments k chain)
  ∧ (∀ pA pB layoutA layoutB chain n status o w,
       Path.segments pA < Path.segments pB →
       obj_get pA (LAYOUTS options) = Some layoutA →
       obj_get pB (LAYOUTS options) = Some layoutB →
       chain = [pA; pB] ∨ chain = [pB; pA] →
       o_layouts o = Some chain →
       toWebResponse render options (CNode n) status o w
       = (let* inner := layoutB n (o_head o) (o_filename o) in
          let* outer := layoutA inner (o_head o) (o_filename o) in
          construct (returnHtml ("<!doctype html>" +:+ render outer)
                          (default 200%Z status))) w).
Proof.
  split.
  - intros chain n status o w Hchain Hne. split; [|split; [|split]].
    + unfold toWebResponse. rewrite Hchain. by destruct chain.
    + apply sort_perm.
    + apply sort_sorted.
    + intros k. apply sort_stable.
  - intros pA pB layoutA layoutB chain n status o w Hlt HA HB Hor Hchain.
    unfold toWebResponse. rewrite Hchain.
    assert (Hsort := sort_nested pA pB chain Hlt Hor).
    destruct chain as [|p ps]; [by destruct Hor|].
    rewrite Hsort. simpl apply_layouts. rewrite HA, HB.
    unfold bind, addDocType.
    destruct (layoutB n (o_head o) (o_filename o) w) as [[inner|e] w1];
      [|done].
    by destruct (layoutA inner (o_head o) (o_filename o) w1) as [[outer|e] w2].
Qed.

(** C6 (Rendering Composer, pass-through). A [Response] given to
    [toWebResponse] comes back as it is: the same status, headers and
    body, whatever status was asked for and whatever layouts the options
    name, and without any layout having run (the world is unchanged). *)
Theorem response_passes_through r status o w :
  toWebResponse render options (CResponse r) status o w = (Ok r, w).
Proof. reflexivity. Qed.

End ComposerFacts.

(** ** The Route Installer *)

Lemma fold_left_extend {A B} (f : list A → B → list A) :
  (∀ s e, f s e = s ++ f [] e) →
  ∀ es s, fold_left f es s = s ++ fold_left f es [].
Proof.
  intros Hf es. induction es as [|e es IH]; intros s; simpl.
  - by rewrite app_nil_r.
  - rewrite IH, (IH (f [] e)), (Hf s e). by rewrite app_assoc.
Qed.

Lemma fold_left_Forall {A B} (P : A → Prop) (f : list A → B → list A) :
  (∀ s e, Forall P s → Forall P (f s e)) →
  ∀ es s, Forall P s → Forall P (fold_left f es s).
Proof.
  intros Hf es. induction es as [|e es IH]; intros s Hs; simpl; [done|].
  by apply IH, Hf.
Qed.

(** The state of a loop just before the turn of one of its entries. *)
Lemma fold_left_turn {S B} (f : S → B → S) (es : list B) (init : S) (e : B) :
  e ∈ es →
  ∃ before after,
    es = before ++ e :: after
    ∧ fold_left f es init = fold_left f after (f (fold_left f before init) e).
Proof.
  intros (before & after & ->)%list_elem_of_split.
  exists before, after. split; [done|].
  by rewrite fold_left_app.
Qed.

Section InstallerFacts.

Context {Node Ctx Err World : Type}.
Variable render : Node → string.
Variable filePathToPath : string → string.
Variable groupByDirectory : ∀ A : Type, JsObject A → JsObject (JsObject A).
Variable listByDirectory : ∀ A : Type, JsObject A → gmap string (list string).
Variable regexp_replace : string → string → string.
Variable options : @ServerOptions Node Ctx Err World.

#[local] Abbreviation SubCall := (@SubCall Node Ctx Err World).
#[local] Abbreviation Installation := (@Installation Node Ctx Err World).
#[local] Abbreviation RouteDefault := (@RouteDefault Node Ctx Err World).
#[local] Abbreviation pMap := (preservedMap groupByDirectory options).

Lemma install_entry_extend path o (s : list SubCall) entry :
  install_entry path o s entry = s ++ install_entry path o [] entry.
Proof.
  destruct entry as [method [member|]]; simpl;
    destruct (String.eqb method "APP"); by rewrite ?app_nil_r.
Qed.

Lemma install_preserved_extend dir o (s : list SubCall) entry :
  install_preserved options dir o s entry
  = s ++ install_preserved options dir o [] entry.
Proof.
  destruct entry as [preservedDir content]. simpl.
  destruct (_ && _); [|by rewrite app_nil_r].
  destruct (obj_get NOTFOUND_FILENAME content),
           (obj_get ERROR_FILENAME content);
    by rewrite ?app_nil_r, <- ?app_assoc.
Qed.

Lemma install_entries_unfold path o
    (entry : string * option (@Member Node Ctx Err World)) entries :
  fold_left (install_entry path o) (entry :: entries) ([] : list SubCall)
  = install_entry path o [] entry
    ++ fold_left (install_entry path o) entries [].
Proof.
  simpl. by rewrite (fold_left_extend _ (install_entry_extend path o)).
Qed.

(** The calls of the loop over the members of a route object: one for
    each defined member, which is invoked with the sub-router under the
    key ['APP'] and registered for the method of its key otherwise. *)
Lemma install_entries_elem path o
    (entries : JsObject (option (@Member Node Ctx Err World)))
    (call : SubCall) :
  call ∈ fold_left (install_entry path o) entries []
  ↔ ∃ method member,
      (method, Some member) ∈ entries
      ∧ call = if String.eqb method "APP"
               then SubUseApp path (as_app member) o
               else SubOn method path (CloMethod (as_handler member) o).
Proof.
  induction entries as [|[method member] entries IH].
  - simpl. split; [by intros ?%elem_of_nil|].
    by intros (? & ? & ?%elem_of_nil & _).
  - rewrite install_entries_unfold, elem_of_app, IH. clear IH. split.
    + intros [Hnew | (md & m & Hin & ->)].
      * exists method. simpl in Hnew.
        destruct (String.eqb method "APP") eqn:Happ, member as [m|];
          try (by apply elem_of_nil in Hnew);
          apply list_elem_of_singleton in Hnew as ->;
          exists m; (split; [by left|done]).
      * exists md, m. split; [by right|done].
    + intros (md & m & Hin & ->).
      apply elem_of_cons in Hin as [[= -> <-]|Hin].
      * left. simpl. destruct (String.eqb method "APP");
          by apply list_elem_of_singleton.
      * right. by exists md, m.
Qed.

Lemma component_call_in path o (rd : RouteDefault) fc :
  rd_call rd = Some fc →
  SubGet path (CloComponent fc o) ∈ route_calls path o rd.
Proof.
  intros Hcall. unfold route_calls. rewrite Hcall.
  apply elem_of_app. left. by apply list_elem_of_singleton.
Qed.

Lemma member_call_in path o (rd : RouteDefault) method member :
  (method, Some member) ∈ rd_entries rd → method ≠ "APP" →
  SubOn method path (CloMethod (as_handler member) o)
  ∈ route_calls path o rd.
Proof.
  intros Hin Hne. unfold route_calls. apply elem_of_app. right.
  apply install_entries_elem. exists method, member. split; [done|].
  by destruct (String.eqb_spec method "APP").
Qed.

(** One route file without a dispatch capability: a render context, the
    calls for its handlers, the calls for the preserved files of its
    directory, and the mount of the sub-router as it then stands. *)
Lemma install_file_unmounted dir layouts (st : Installation) filename
    (rd : RouteDefault) :
  rd_fetch rd = None →
  let o := file_options options layouts (st_heads st) filename in
  let calls := route_calls (filePathToPath filename) o rd
               ++ preserved_calls pMap options dir o in
  install_file filePathToPath groupByDirectory regexp_replace options dir
    layouts st
               (filename, Some rd)
  = {| st_subApp := st_subApp st ++ calls;
       st_app := st_app st ++
         [AppRoute (Path.rootPath regexp_replace (root options) dir) (st_subApp
           st ++ calls)];
       st_heads := S (st_heads st) |}.
Proof.
  intros Hfetch o calls. unfold install_file. rewrite Hfetch.
  fold (file_options options layouts (st_heads st) filename). fold o.
  assert (Hcalls :
    fold_left (install_preserved options dir o) pMap
      (fold_left (install_entry (filePathToPath filename) o) (rd_entries rd)
         (match rd_call rd with
          | Some fc =>
              st_subApp st
              ++ [SubGet (filePathToPath filename) (CloComponent fc o)]
          | None => st_subApp st
          end))
    = st_subApp st ++ calls).
  { rewrite (fold_left_extend _ (install_preserved_extend dir o)).
    rewrite (fold_left_extend _ (install_entry_extend _ o)).
    unfold calls, route_calls, preserved_calls.
    destruct (rd_call rd); by rewrite <- ?app_assoc, ?app_nil_r. }
  by rewrite Hcalls.
Qed.

Lemma install_file_mounted dir layouts (st : Installation) filename
    (rd : RouteDefault) mounted :
  rd_fetch rd = Some mounted →
  install_file filePathToPath groupByDirectory regexp_replace options dir
    layouts st
               (filename, Some rd)
  = {| st_subApp := st_subApp st ++ [SubRoute (filePathToPath filename) mounted];
       st_app := st_app st ++
         [AppRoute (Path.rootPath regexp_replace (root options) dir)
            (st_subApp st ++ [SubRoute (filePathToPath filename) mounted])];
       st_heads := st_heads st |}.
Proof. intros Hfetch. unfold install_file. by rewrite Hfetch. Qed.

(** The handlers of the file come before the preserved files. *)
Lemma route_calls_are_routes path o (rd : RouteDefault) :
  Forall (λ call, is_route_call call = true) (route_calls path o rd).
Proof.
  unfold route_calls. apply Forall_app. split.
  - destruct (rd_call rd); by repeat constructor.
  - apply fold_left_Forall; [|constructor].
    intros s [method [member|]] Hs; simpl;
      destruct (String.eqb method "APP"); try done;
      apply Forall_app; split; by repeat constructor.
Qed.

Lemma preserved_calls_are_preserved dir o :
  Forall (λ call, is_preserved_call call = true)
         (preserved_calls pMap options dir o).
Proof.
  unfold preserved_calls. apply fold_left_Forall; [|constructor].
  intros s [preservedDir content] Hs. simpl.
  destruct (_ && _); [|done].
  destruct (obj_get NOTFOUND_FILENAME content),
           (obj_get ERROR_FILENAME content);
    rewrite ?Forall_app; repeat split; try done; by repeat constructor.
Qed.

(** Every call of the file captures the render context of the file. *)
Lemma route_calls_head path o (rd : RouteDefault) :
  Forall (λ call, call_head call = Some (o_head o)) (route_calls path o rd).
Proof.
  unfold route_calls. apply Forall_app. split.
  - destruct (rd_call rd); by repeat constructor.
  - apply fold_left_Forall; [|constructor].
    intros s [method [member|]] Hs; simpl;
      destruct (String.eqb method "APP"); try done;
      apply Forall_app; split; by repeat constructor.
Qed.

Lemma preserved_calls_head dir o :
  Forall (λ call, call_head call = Some (o_head o))
         (preserved_calls pMap options dir o).
Proof.
  unfold preserved_calls. apply fold_left_Forall; [|constructor].
  intros s [preservedDir content] Hs. simpl.
  destruct (_ && _); [|done].
  destruct (obj_get NOTFOUND_FILENAME content),
           (obj_get ERROR_FILENAME content);
    rewrite ?Forall_app; repeat split; try done; by repeat constructor.
Qed.

(** The preserved files installed for a directory, when the preserved
    index has the directory once (the keys of an object are distinct). *)
Lemma preserved_calls_absent dir o
    (l : JsObject (JsObject (@PreservedHandler Node Ctx Err World))) :
  dir ∉ l.*1 → preserved_calls l options dir o = [].
Proof.
  unfold preserved_calls.
  induction l as [|[k pc] l IH]; simpl; [done|].
  intros Hnotin. apply not_elem_of_cons in Hnotin as [Hk Hl].
  destruct (String.eqb_spec dir k) as [->|_]; [done|].
  rewrite andb_false_r. by apply IH.
Qed.

Lemma preserved_calls_lookup dir o content
    (l : JsObject (JsObject (@PreservedHandler Node Ctx Err World))) :
  NoDup l.*1 → dir ≠ root options → obj_get dir l = Some content →
  preserved_calls l options dir o
  = match obj_get NOTFOUND_FILENAME content with
    | Some notFoundHandler => [SubGet "*" (CloNotFound notFoundHandler o)]
    | None => []
    end
    ++ match obj_get ERROR_FILENAME content with
       | Some errorHandler => [SubOnError (CloError errorHandler o)]
       | None => []
       end.
Proof.
  intros Hnodup Hroot. unfold preserved_calls.
  induction l as [|[k pc] l IH]; simpl; [done|].
  apply NoDup_cons in Hnodup as [Hk Hnodup].
  rewrite (fold_left_extend _ (install_preserved_extend dir o)).
  simpl. destruct (String.eqb_spec dir k) as [->|Hne].
  - intros [= ->].
    destruct (String.eqb_spec k (root options)) as [?|_]; [done|]. simpl.
    fold (preserved_calls l options k o).
    rewrite (preserved_calls_absent k o l Hk), app_nil_r.
    by destruct (obj_get NOTFOUND_FILENAME content),
                (obj_get ERROR_FILENAME content).
  - intros Hget. rewrite andb_false_r. simpl. by apply IH.
Qed.

(** The calls on the outermost router are only ever added to. *)
Lemma install_file_app dir layouts (st : Installation) entry :
  st_app st `prefix_of`
    st_app (install_file filePathToPath groupByDirectory regexp_replace options
                         dir layouts st entry).
Proof.
  destruct entry as [filename [rd|]]; simpl; [|done].
  destruct (rd_fetch rd); simpl; by apply prefix_app_r.
Qed.

Lemma install_files_app dir layouts content (st : Installation) :
  st_app st `prefix_of`
    st_app (fold_left
              (install_file filePathToPath groupByDirectory regexp_replace
                options dir layouts)
              content st).
Proof.
  revert st. induction content as [|entry content IH]; intros st; simpl;
    [done|].
  etrans; [apply install_file_app|apply IH].
Qed.

Lemma install_dir_app (st : Installation) entry :
  st_app st `prefix_of`
    st_app (install_dir filePathToPath groupByDirectory listByDirectory
      regexp_replace
                        options st entry).
Proof.
  destruct entry as [dir content]. unfold install_dir.
  apply (install_files_app dir _ content
           {| st_subApp := []; st_app := st_app st; st_heads := st_heads st |}).
Qed.

Lemma install_dirs_app dirs (st : Installation) :
  st_app st `prefix_of`
    st_app (fold_left
              (install_dir filePathToPath groupByDirectory listByDirectory
                regexp_replace
                           options) dirs st).
Proof.
  revert st. induction dirs as [|entry dirs IH]; intros st; simpl; [done|].
  etrans; [apply install_dir_app|apply IH].
Qed.

Lemma install_default_app (st : Installation) :
  st_app st `prefix_of` install_default groupByDirectory options st.
Proof.
  unfold install_default.
  destruct (obj_get _ _) as [content|]; [|done].
  destruct (obj_get NOTFOUND_FILENAME content),
           (obj_get ERROR_FILENAME content);
    rewrite <- ?app_assoc; first [done | by apply prefix_app_r].
Qed.

(** The mount that ends the turn of a route file is a call of the
    finished router. *)
Lemma file_mounted_in_app dir content filename (rd : RouteDefault) :
  (dir, content) ∈ routesMap groupByDirectory options →
  (filename, Some rd) ∈ content →
  ∃ st : Installation,
    AppRoute (Path.rootPath regexp_replace (root options) dir)
      (st_subApp (install_file filePathToPath groupByDirectory regexp_replace
        options dir
                    (resolve_layouts listByDirectory options dir) st
                    (filename, Some rd)))
    ∈ createApp filePathToPath groupByDirectory listByDirectory regexp_replace
      options.
Proof.
  intros Hdir Hfile. unfold createApp, install_routes.
  destruct (fold_left_turn
              (install_dir filePathToPath groupByDirectory listByDirectory
                regexp_replace
                           options)
              _ {| st_subApp := []; st_app := default [] (opt_app options);
                   st_heads := 0 |} _ Hdir)
    as (dirs1 & dirs2 & _ & ->).
  set (st0 := fold_left _ dirs1 _).
  unfold install_dir at 2.
  destruct (fold_left_turn
              (install_file filePathToPath groupByDirectory regexp_replace
                options dir
                 (resolve_layouts listByDirectory options dir))
              _ {| st_subApp := []; st_app := st_app st0;
                   st_heads := st_heads st0 |} _ Hfile)
    as (files1 & files2 & _ & ->).
  set (st := fold_left _ files1 _). exists st.
  eapply elem_of_prefix; [|apply install_default_app].
  eapply elem_of_prefix; [|apply install_dirs_app].
  eapply elem_of_prefix; [|apply install_files_app].
  unfold install_file. destruct (rd_fetch rd); simpl;
    apply elem_of_app; right; apply list_elem_of_singleton; done.
Qed.

(** The mount that ends the turn of a route file without a dispatch
    capability, with the calls of the turn. *)
Lemma file_turn_in_app dir content filename (rd : RouteDefault) :
  (dir, content) ∈ routesMap groupByDirectory options →
  (filename, Some rd) ∈ content →
  rd_fetch rd = None →
  ∃ st : Installation,
    let o := file_options options
               (resolve_layouts listByDirectory options dir)
               (st_heads st) filename in
    AppRoute (Path.rootPath regexp_replace (root options) dir)
      (st_subApp st
       ++ route_calls (filePathToPath filename) o rd
       ++ preserved_calls pMap options dir o)
    ∈ createApp filePathToPath groupByDirectory listByDirectory
        regexp_replace options.
Proof.
  intros Hdir Hfile Hfetch.
  destruct (file_mounted_in_app dir content filename rd Hdir Hfile)
    as (st & Hin).
  exists st. by rewrite install_file_unmounted in Hin.
Qed.

End InstallerFacts.

(** ** The router *)

Section RouterFacts.

Context {Node Ctx Err World : Type}.
Variable render : Node → string.
Variable filePathToPath : string → string.
Variable groupByDirectory : ∀ A : Type, JsObject A → JsObject (JsObject A).
Variable listByDirectory : ∀ A : Type, JsObject A → gmap string (list string).
Variable regexp_replace : string → string → string.
Variable options : @ServerOptions Node Ctx Err World.
Variable path_match : string → string → bool.
Variable mergePath : string → string → string.
Variable next_of :
  list (@AppCall Node Ctx Err World) → string → string → Ctx
  → @Next Err World.

#[local] Abbreviation SubCall := (@SubCall Node Ctx Err World).
#[local] Abbreviation AppCall := (@AppCall Node Ctx Err World).
#[local] Abbreviation Closure := (@Closure Node Ctx Err World).
#[local] Abbreviation Route := (@Route Node Ctx Err World).
#[local] Abbreviation Installation := (@Installation Node Ctx Err World).
#[local] Abbreviation RouteDefault := (@RouteDefault Node Ctx Err World).
#[local] Abbreviation pMap := (preservedMap groupByDirectory options).
#[local] Abbreviation routes_of := (sub_routes render options mergePath).
#[local] Abbreviation mounted_at := (mount render options mergePath).
#[local] Abbreviation routes_of_app := (app_routes render options mergePath).
#[local] Abbreviation only_get := (only_get render options mergePath).

Lemma sub_routes_app (s1 s2 : list SubCall) :
  routes_of (s1 ++ s2) = routes_of s1 ++ routes_of s2.
Proof. unfold sub_routes. apply bind_app. Qed.

Lemma sub_onError_app (s1 s2 : list SubCall) :
  sub_onError (s1 ++ s2)
  = match sub_onError s2 with
    | Some h => Some h
    | None => sub_onError s1
    end.
Proof.
  induction s1 as [|call s1 IH]; simpl.
  - by destruct (sub_onError s2).
  - rewrite IH. by destruct (sub_onError s2).
Qed.

Lemma app_routes_app (a1 a2 : list AppCall) :
  routes_of_app (a1 ++ a2) = routes_of_app a1 ++ routes_of_app a2.
Proof. unfold app_routes. apply bind_app. Qed.

Lemma mount_elem rootPath (subApp : list SubCall) (r : Route) :
  r ∈ routes_of subApp →
  {| r_method := r_method r; r_path := mergePath rootPath (r_path r);
     r_target := r_target r; r_onError := sub_onError subApp |}
  ∈ mounted_at rootPath subApp.
Proof.
  intros Hr. unfold mount. apply list_elem_of_fmap. by exists r.
Qed.

Lemma mount_method rootPath (subApp : list SubCall) (r : Route) :
  r ∈ mounted_at rootPath subApp →
  ∃ r0, r0 ∈ routes_of subApp ∧ r_method r = r_method r0
        ∧ r_target r = r_target r0.
Proof.
  unfold mount. intros (r0 & -> & Hr0)%list_elem_of_fmap. by exists r0.
Qed.

Lemma app_routes_elem (app : list AppCall) rootPath subApp (r : Route) :
  AppRoute rootPath subApp ∈ app →
  r ∈ mounted_at rootPath subApp →
  r ∈ routes_of_app app.
Proof.
  intros Hcall Hr. unfold app_routes. apply list_elem_of_bind.
  by exists (AppRoute rootPath subApp).
Qed.

(** A request that a route accepts is served by the first such route,
    under the interceptor of its sub-router and then the one of the
    outermost router; the not-found handler of the outermost router is
    not consulted. *)
Lemma dispatch_matched (app : list AppCall) method path c (r : Route) :
  match_route render options path_match mergePath app method path = Some r →
  dispatch render options path_match mergePath next_of app method path c
  = let* res :=
      intercept render options (app_onError app) c
        (intercept render options (r_onError r) c
           (run_target render options (r_target r) c
              (next_of app method path c))) in
    ret (Some res).
Proof. unfold dispatch. by intros ->. Qed.

(** A request that no route accepts goes to not-found handling: the
    not-found handler of the outermost router, or the router's default. *)
Lemma dispatch_unmatched (app : list AppCall) method path c :
  match_route render options path_match mergePath app method path = None →
  dispatch render options path_match mergePath next_of app method path c
  = match app_notFound app with
    | Some h =>
        let* res :=
          intercept render options (app_onError app) c
            (run_closure render options h c (no_next) None) in
        ret (Some res)
    | None => ret None
    end.
Proof. unfold dispatch. by intros ->. Qed.

Lemma match_route_other_method (app : list AppCall) method path :
  Forall (λ r : Route, r_method r ≠ method) (routes_of_app app) →
  match_route render options path_match mergePath app method path = None.
Proof.
  unfold match_route. induction 1 as [|r rs Hr _ IH]; simpl; [done|].
  unfold route_accepts at 1.
  destruct (String.eqb_spec (r_method r) method) as [?|_]; [done|].
  simpl. apply IH.
Qed.

(** An exception of a route goes to the interceptor of its sub-router,
    and its answer is the response; the interceptor of the outermost
    router is not run. *)
Lemma intercept_nearest (rootError : option Closure) (h : Closure) c
    (m : M World Err Response) w e w1 r w2 :
  m w = (Throw e, w1) →
  run_closure render options h c no_next (Some e) w1 = (Ok r, w2) →
  intercept render options rootError c
    (intercept render options (Some h) c m) w = (Ok r, w2).
Proof.
  intros Hm Hh.
  assert (Hinner : intercept render options (Some h) c m w = (Ok r, w2)).
  { unfold intercept, catch. by rewrite Hm. }
  destruct rootError as [h'|]; [|done].
  unfold intercept at 1. unfold catch. by rewrite Hinner.
Qed.

(** A response is not touched by the interceptors. *)
Lemma intercept_ok (rootError subError : option Closure) c
    (m : M World Err Response) w r w1 :
  m w = (Ok r, w1) →
  intercept render options rootError c
    (intercept render options subError c m) w = (Ok r, w1).
Proof.
  intros Hm.
  assert (Hinner : intercept render options subError c m w = (Ok r, w1)).
  { destruct subError; [|done]. unfold intercept, catch. by rewrite Hm. }
  destruct rootError; [|done].
  unfold intercept at 1. unfold catch. by rewrite Hinner.
Qed.

(** A route that a call on a mounted sub-router adds is a route of the
    outermost router, under the prefix and guarded by the interceptor of
    the sub-router. *)
Lemma call_route_in_app (app : list AppCall) rootPath subApp
    (call : SubCall) (r : Route) :
  AppRoute rootPath subApp ∈ app → call ∈ subApp →
  r ∈ call_routes render options mergePath call →
  {| r_method := r_method r; r_path := mergePath rootPath (r_path r);
     r_target := r_target r; r_onError := sub_onError subApp |}
  ∈ routes_of_app app.
Proof.
  intros Happ Hcall Hr. eapply app_routes_elem; [exact Happ|].
  apply mount_elem. unfold sub_routes. apply list_elem_of_bind.
  by exists call.
Qed.


(** The answer to a request served by a closure whose user code returns
    content, when no layout throws. *)
Lemma dispatch_closure_content (app : list AppCall) method path c
    (r : Route) (h : Closure) w n w1 :
  layouts_return (LAYOUTS options) →
  match_route render options path_match mergePath app method path = Some r →
  r_target r = TClosure h →
  closure_call h c
    (next_of app method path c) None w
  = (Ok (CNode n), w1) →
  ∃ html w',
    toWebResponse render options (CNode n) (Some (closure_status h))
      (closure_options h) w1
    = (Ok {| status := closure_status h; headers := html_headers;
             body := html |}, w')
    ∧ dispatch render options path_match mergePath next_of app method path c w
      = (Ok (Some {| status := closure_status h; headers := html_headers;
                     body := html |}), w').
Proof.
  intros Hret Hmatch Htarget Hcall.
  destruct (run_closure_content render options h c _ None w n w1 Hret Hcall)
    as (html & w' & Hweb & Hrun).
  exists html, w'. split; [exact Hweb|].
  rewrite (dispatch_matched _ _ _ _ _ Hmatch).
  erewrite bind_ok; [done|].
  apply intercept_ok. rewrite Htarget. exact Hrun.
Qed.

(** The answer to a request whose route throws under an interceptor of
    its sub-router that returns content. *)
Lemma dispatch_intercepted (app : list AppCall) method path c
    (r : Route) (h : Closure) w e w1 n w2 :
  layouts_return (LAYOUTS options) →
  match_route render options path_match mergePath app method path = Some r →
  r_onError r = Some h →
  run_target render options (r_target r) c
    (next_of app method path c) w
  = (Throw e, w1) →
  closure_call h c no_next (Some e) w1 = (Ok (CNode n), w2) →
  ∃ html w',
    toWebResponse render options (CNode n) (Some (closure_status h))
      (closure_options h) w2
    = (Ok {| status := closure_status h; headers := html_headers;
             body := html |}, w')
    ∧ dispatch render options path_match mergePath next_of app method path c w
      = (Ok (Some {| status := closure_status h; headers := html_headers;
                     body := html |}), w').
Proof.
  intros Hret Hmatch Hguard Hthrow Hcall.
  destruct (run_closure_content render options h c _ (Some e) w1 n w2
              Hret Hcall) as (html & w' & Hweb & Hrun).
  exists html, w'. split; [exact Hweb|].
  rewrite (dispatch_matched _ _ _ _ _ Hmatch), Hguard.
  erewrite bind_ok; [done|].
  by eapply intercept_nearest.
Qed.

(** The same without an interceptor of the sub-router: the interceptor
    of the outermost router answers. *)
Lemma dispatch_root_intercepted (app : list AppCall) method path c
    (r : Route) (h : Closure) w e w1 n w2 :
  layouts_return (LAYOUTS options) →
  match_route render options path_match mergePath app method path = Some r →
  r_onError r = None →
  app_onError app = Some h →
  run_target render options (r_target r) c
    (next_of app method path c) w
  = (Throw e, w1) →
  closure_call h c no_next (Some e) w1 = (Ok (CNode n), w2) →
  ∃ html w',
    dispatch render options path_match mergePath next_of app method path c w
    = (Ok (Some {| status := closure_status h; headers := html_headers;
                   body := html |}), w').
Proof.
  intros Hret Hmatch Hguard Hroot Hthrow Hcall.
  destruct (run_closure_content render options h c _ (Some e) w1 n w2
              Hret Hcall) as (html & w' & _ & Hrun).
  exists html, w'.
  rewrite (dispatch_matched _ _ _ _ _ Hmatch), Hguard, Hroot.
  erewrite bind_ok; [done|].
  unfold intercept, catch. by rewrite Hthrow.
Qed.

(** The answer to a request that no route accepts, from a not-found
    handler of the outermost router that returns content. *)
Lemma dispatch_unmatched_content (app : list AppCall) method path c
    (h : Closure) w n w1 :
  layouts_return (LAYOUTS options) →
  match_route render options path_match mergePath app method path = None →
  app_notFound app = Some h →
  closure_call h c no_next None w = (Ok (CNode n), w1) →
  ∃ html w',
    dispatch render options path_match mergePath next_of app method path c w
    = (Ok (Some {| status := closure_status h; headers := html_headers;
                   body := html |}), w').
Proof.
  intros Hret Hmatch Hfound Hcall.
  destruct (run_closure_content render options h c _ None w n w1 Hret Hcall)
    as (html & w' & _ & Hrun).
  exists html, w'.
  rewrite (dispatch_unmatched _ _ _ _ Hmatch), Hfound.
  erewrite bind_ok; [done|].
  destruct (app_onError app); [|done].
  unfold intercept, catch. by rewrite Hrun.
Qed.

(** *** Routers as default exports *)


(** C10 (classification priority). As soon as the default export has a
    [fetch] member the turn of the file ends with the mount: what else
    the export is (a function, an object with method or [APP] members)
    plays no part, the only call on the sub-router is the [route] call
    (no handler for GET or for another method, no [APP] handler invoked,
    no preserved file installed), and no render context is created. *)
Theorem dispatch_capability_first dir layouts (st : Installation) filename
    (rd : RouteDefault) mounted :
  rd_fetch rd = Some mounted →
  let install :=
    install_file filePathToPath groupByDirectory regexp_replace options dir
      layouts st in
  let st' := install (filename, Some rd) in
  st' = install (filename,
                 Some {| rd_fetch := Some mounted; rd_call := None;
                         rd_entries := [] |})
  ∧ (∃ added, st_subApp st' = st_subApp st ++ added
       ∧ Forall (λ call, match call with
                         | SubRoute _ routeDefault => routeDefault = mounted
                         | _ => False
                         end) added
       ∧ Forall (λ call, is_preserved_call call = false) added
       ∧ length added = 1)
  ∧ st_heads st' = st_heads st.
Proof.
  intros Hfetch install st'. unfold st', install.
  rewrite !(install_file_mounted filePathToPath groupByDirectory regexp_replace
    options
              dir layouts st filename _ mounted) by done.
  split; [done|]. split; [|done].
  exists [SubRoute (filePathToPath filename) mounted].
  simpl. repeat split; by repeat constructor.
Qed.

(** *** Components *)

Lemma preserved_call_get (call : SubCall) :
  is_preserved_call call = true →
  Forall (λ r : Route, r_method r = "GET")
         (call_routes render options mergePath call).
Proof.
  destruct call as [| path [] | | |]; simpl; try done;
    intros _; by repeat constructor.
Qed.

Lemma preserved_calls_get dir o :
  Forall (λ r : Route, r_method r = "GET")
         (routes_of (preserved_calls pMap options dir o)).
Proof.
  unfold sub_routes. apply Forall_bind.
  eapply Forall_impl;
    [apply (preserved_calls_are_preserved groupByDirectory options)|].
  apply preserved_call_get.
Qed.

Lemma component_calls path o (rd : RouteDefault) :
  plain_component rd →
  ∃ fc, rd_call rd = Some fc
        ∧ route_calls path o rd = [SubGet path (CloComponent fc o)].
Proof.
  intros (_ & [fc Hfc] & Hentries). exists fc. split; [done|].
  unfold route_calls. by rewrite Hfc, Hentries.
Qed.

Lemma component_file_get dir path o (rd : RouteDefault) :
  plain_component rd →
  Forall (λ r : Route, r_method r = "GET")
         (routes_of (route_calls path o rd
                     ++ preserved_calls pMap options dir o)).
Proof.
  intros Hplain. rewrite sub_routes_app. apply Forall_app. split.
  - destruct (component_calls path o rd Hplain) as (fc & _ & ->).
    by repeat constructor.
  - apply preserved_calls_get.
Qed.

Lemma mount_get rootPath (subApp : list SubCall) :
  Forall (λ r : Route, r_method r = "GET") (routes_of subApp) →
  Forall (λ r : Route, r_method r = "GET") (mounted_at rootPath subApp).
Proof.
  intros Hget. unfold mount. apply Forall_fmap.
  eapply Forall_impl; [exact Hget|]. done.
Qed.

Lemma install_file_only_get dir layouts (st : Installation) filename route :
  (∀ rd, route = Some rd → plain_component rd) →
  only_get st →
  only_get (install_file filePathToPath groupByDirectory regexp_replace options
    dir layouts
                         st (filename, route)).
Proof.
  intros Hplain [Hsub Happ]. destruct route as [rd|]; [|done].
  specialize (Hplain rd eq_refl).
  rewrite install_file_unmounted by apply Hplain.
  assert (Hsub' : Forall (λ r : Route, r_method r = "GET")
    (routes_of (st_subApp st ++
       (route_calls (filePathToPath filename)
          (file_options options layouts (st_heads st) filename) rd
        ++ preserved_calls pMap options dir
             (file_options options layouts (st_heads st) filename))))).
  { rewrite sub_routes_app. apply Forall_app. split; [done|].
    by apply component_file_get. }
  split; simpl; [done|].
  rewrite app_routes_app. apply Forall_app. split; [done|].
  unfold app_routes. simpl. rewrite app_nil_r. by apply mount_get.
Qed.

Lemma install_files_only_get dir layouts content (st : Installation) :
  (∀ filename rd, (filename, Some rd) ∈ content → plain_component rd) →
  only_get st →
  only_get (fold_left
              (install_file filePathToPath groupByDirectory regexp_replace
                options dir layouts)
              content st).
Proof.
  revert st. induction content as [|[filename route] content IH];
    intros st Hplain Hst; simpl; [done|].
  apply IH.
  - intros f rd Hin. apply (Hplain f). by right.
  - apply install_file_only_get; [|done].
    intros rd ->. apply (Hplain filename). by left.
Qed.

Lemma install_dirs_only_get dirs (st : Installation) :
  (∀ dir content filename rd,
     (dir, content) ∈ dirs → (filename, Some rd) ∈ content →
     plain_component rd) →
  Forall (λ r : Route, r_method r = "GET") (routes_of_app (st_app st)) →
  Forall (λ r : Route, r_method r = "GET")
         (routes_of_app
            (st_app (fold_left
                       (install_dir filePathToPath groupByDirectory
                                    listByDirectory regexp_replace
                                      options) dirs st))).
Proof.
  revert st. induction dirs as [|[dir content] dirs IH];
    intros st Hplain Hst; simpl; [done|].
  apply IH.
  - intros d c f rd Hd. apply (Hplain d c f rd). by right.
  - unfold install_dir.
    apply (install_files_only_get dir _ content
             {| st_subApp := []; st_app := st_app st;
                st_heads := st_heads st |}).
    + intros f rd. apply (Hplain dir content f rd). by left.
    + split; [constructor|done].
Qed.

Lemma install_default_routes (st : Installation) :
  routes_of_app (install_default groupByDirectory options st)
  = routes_of_app (st_app st).
Proof.
  unfold install_default.
  destruct (obj_get _ _) as [content|]; [|done].
  destruct (obj_get NOTFOUND_FILENAME content),
           (obj_get ERROR_FILENAME content);
    rewrite ?app_routes_app; unfold app_routes; simpl;
    by rewrite ?app_nil_r.
Qed.

(** C9 (components answer GET). For a route file whose default export is
    a function and nothing else, the only handler call of the file is
    [subApp.get] at the URL path of the file; with the preserved files
    that the turn of the file installs, every route the file adds is a
    GET route, so a request with another method is accepted by none of
    them, under whatever prefix they are mounted. When all the route
    files of the application are such components, a request with another
    method goes to not-found handling: the not-found handler of the
    outermost router if there is one, else the router's default. *)
Theorem component_get_only :
  (∀ dir layouts (st : Installation) filename (rd : RouteDefault),
     plain_component rd →
     let path := filePathToPath filename in
     let o := file_options options layouts (st_heads st) filename in
     let added := route_calls path o rd
                  ++ preserved_calls pMap options dir o in
     (∃ fc, rd_call rd = Some fc
            ∧ route_calls path o rd = [SubGet path (CloComponent fc o)])
     ∧ st_subApp (install_file filePathToPath groupByDirectory regexp_replace
       options dir
                    layouts st (filename, Some rd))
       = st_subApp st ++ added
     ∧ ∀ method request_path prefix (r : Route),
         method ≠ "GET" →
         r ∈ mounted_at prefix added →
         route_accepts path_match method request_path r = false)
  ∧ ((∀ dir content filename (rd : RouteDefault),
        (dir, content) ∈ routesMap groupByDirectory options →
        (filename, Some rd) ∈ content → plain_component rd) →
     opt_app options = None →
     ∀ method request_path c,
       method ≠ "GET" →
       let app := createApp filePathToPath groupByDirectory listByDirectory
         regexp_replace
                    options in
       dispatch render options path_match mergePath next_of app method
         request_path c
       = match app_notFound app with
         | Some h =>
             let* res :=
               intercept render options (app_onError app) c
                 (run_closure render options h c no_next None) in
             ret (Some res)
         | None => ret None
         end).
Proof.
  split.
  - intros dir layouts st filename rd Hplain path o added.
    split; [by apply component_calls|]. split.
    + rewrite install_file_unmounted by apply Hplain. done.
    + intros method request_path prefix r Hmethod Hr.
      pose proof (mount_get prefix added
                    (component_file_get dir path o rd Hplain)) as Hget.
      rewrite Forall_forall in Hget. specialize (Hget r Hr).
      unfold route_accepts. rewrite Hget.
      by destruct (String.eqb_spec "GET" method).
  - intros Hplain Happ method request_path c Hmethod app.
    apply dispatch_unmatched, match_route_other_method.
    unfold app, createApp. rewrite install_default_routes.
    unfold install_routes.
    eapply Forall_impl.
    + apply install_dirs_only_get; [exact Hplain|].
      simpl. rewrite Happ. constructor.
    + simpl. intros r ->. done.
Qed.

End RouterFacts.

(** ** The Layout Resolver *)

Lemma removelast_take {A} (l : list A) : removelast l = take (length l - 1) l.
Proof.
  induction l as [|x l IH]; [done|].
  destruct l as [|y l]; [done|].
  change (removelast (x :: y :: l)) with (x :: removelast (y :: l)).
  rewrite IH. simpl. by rewrite Nat.sub_0_r.
Qed.

Section ResolverFacts.

Context {Node Ctx Err World : Type}.
Variable render : Node → string.
Variable filePathToPath : string → string.
Variable groupByDirectory : ∀ A : Type, JsObject A → JsObject (JsObject A).
Variable listByDirectory : ∀ A : Type, JsObject A → gmap string (list string).
Variable regexp_replace : string → string → string.
Variable options : @ServerOptions Node Ctx Err World.
Variable path_match : string → string → bool.
Variable mergePath : string → string → string.
Variable next_of :
  list (@AppCall Node Ctx Err World) → string → string → Ctx
  → @Next Err World.

#[local] Abbreviation Installation := (@Installation Node Ctx Err World).
#[local] Abbreviation RouteDefault := (@RouteDefault Node Ctx Err World).
#[local] Abbreviation Route := (@Route Node Ctx Err World).
#[local] Abbreviation rMap := (routesMap groupByDirectory options).
#[local] Abbreviation the_app :=
  (createApp filePathToPath groupByDirectory listByDirectory regexp_replace
             options).
#[local] Abbreviation lList := (layoutList listByDirectory options).

(** [getLayoutPaths] satisfies the equation of its source: look the
    joined paths up; without an entry, [pop], and go on if a segment is
    left. The count of the recursion never runs out. *)
Lemma getLayoutPaths_unfold (paths : list string) :
  getLayoutPaths listByDirectory options paths
  = match lList !! Path.join paths with
    | Some layouts => Some layouts
    | None =>
        match removelast paths with
        | [] => None
        | _ :: _ =>
            getLayoutPaths listByDirectory options (removelast paths)
        end
    end.
Proof.
  unfold getLayoutPaths.
  assert (Hlen : length (removelast paths) = length paths - 1)
    by (rewrite removelast_take, length_take; lia).
  destruct (length paths) as [|n] eqn:Hn; simpl;
    destruct (lList !! Path.join paths); try done.
  - destruct paths; [done|discriminate].
  - destruct (removelast paths) as [|q qs] eqn:Hpop; [done|].
    f_equal. lia.
Qed.

(** The lookups of [getLayoutPaths]: the paths itself, then ever shorter
    prefixes, down to the first segment alone. *)
Lemma getLayoutPaths_rec_nearest m (paths : list string) :
  paths ≠ [] → length paths <= S m →
  match getLayoutPaths_rec listByDirectory options m paths with
  | Some layouts =>
      ∃ k, 1 <= k <= length paths
           ∧ lList !! Path.join (take k paths) = Some layouts
           ∧ ∀ j, k < j <= length paths →
                  lList !! Path.join (take j paths) = None
  | None =>
      ∀ k, 1 <= k <= length paths → lList !! Path.join (take k paths) = None
  end.
Proof.
  revert paths. induction m as [|m IH]; intros paths Hne Hlen.
  - destruct paths as [|p [|p' paths]]; [done| |simpl in Hlen; lia].
    simpl. destruct (lList !! p) as [layouts|] eqn:Hp.
    + exists 1. simpl. split; [lia|]. split; [done|]. intros j ?; lia.
    + intros k Hk. simpl in Hk. assert (k = 1) as -> by lia. done.
  - simpl. destruct (lList !! Path.join paths) as [layouts|] eqn:Hfull.
    + exists (length paths). rewrite firstn_all.
      split; [destruct paths; [done|simpl; lia]|].
      split; [done|]. intros j ?; lia.
    + assert (Hfull' : lList !! Path.join (take (length paths) paths) = None)
        by by rewrite firstn_all.
      rewrite removelast_take.
      destruct (take (length paths - 1) paths) as [|q qs] eqn:Htake.
      * assert (length paths = 1) as Hone.
        { apply (f_equal length) in Htake. rewrite length_take in Htake.
          simpl in Htake. destruct paths; [done|simpl in *; lia]. }
        intros k Hk. assert (k = length paths) as -> by lia. done.
      * rewrite <- Htake.
        assert (Hlen' : length (take (length paths - 1) paths)
                        = length paths - 1)
          by (rewrite length_take; lia).
        assert (Hshort : ∀ k, k <= length paths - 1 →
                  take k (take (length paths - 1) paths) = take k paths).
        { intros k Hk. rewrite take_take. f_equal. lia. }
        specialize (IH (take (length paths - 1) paths)).
        rewrite Hlen' in IH.
        assert (Hpos : 2 <= length paths).
        { apply (f_equal length) in Htake. rewrite Hlen' in Htake.
          simpl in Htake. lia. }
        specialize (IH ltac:(by rewrite Htake) ltac:(lia)).
        destruct (getLayoutPaths_rec listByDirectory options m
                    (take (length paths - 1) paths)) as [layouts|].
        -- destruct IH as (k & Hk & Hsome & Hnone).
           exists k. split; [lia|]. rewrite Hshort in Hsome by lia.
           split; [done|]. intros j Hj.
           destruct (decide (j = length paths)) as [->|Hneq]; [done|].
           rewrite <- Hshort by lia. apply Hnone. lia.
        -- intros k Hk.
           destruct (decide (k = length paths)) as [->|Hneq]; [done|].
           rewrite <- Hshort by lia. apply IH. lia.
Qed.

(** The first lookup of [getLayoutPaths] repeats the lookup of the
    directory that precedes the call. *)
Lemma resolve_layouts_getLayoutPaths dir :
  resolve_layouts listByDirectory options dir
  = getLayoutPaths listByDirectory options (Path.split dir).
Proof.
  unfold resolve_layouts.
  destruct (lList !! dir) as [layouts|] eqn:Hdir; [|done].
  unfold getLayoutPaths.
  destruct (length (Path.split dir)); simpl; by rewrite join_split, Hdir.
Qed.

(** The walk of [getLayoutPaths], read on directories. *)
Lemma resolve_layouts_parent parent name :
  Path.split name = [name] →
  resolve_layouts listByDirectory options (parent +:+ "/" +:+ name)
  = match lList !! (parent +:+ "/" +:+ name) with
    | Some layouts => Some layouts
    | None => resolve_layouts listByDirectory options parent
    end.
Proof.
  intros Hname. set (dir := parent +:+ "/" +:+ name).
  unfold resolve_layouts at 1.
  destruct (lList !! dir) as [layouts|] eqn:Hdir; [done|].
  rewrite getLayoutPaths_unfold, join_split, Hdir.
  unfold dir. change (parent +:+ "/" +:+ name)
    with (parent +:+ String Path.slash name).
  rewrite split_slash_app, Hname, removelast_snoc.
  pose proof (split_not_nil parent).
  destruct (Path.split parent) as [|p ps] eqn:Hsplit; [done|].
  rewrite <- Hsplit. symmetry. apply resolve_layouts_getLayoutPaths.
Qed.

Lemma resolve_layouts_segment dir :
  Path.split dir = [dir] →
  resolve_layouts listByDirectory options dir = lList !! dir.
Proof.
  intros Hdir. unfold resolve_layouts.
  destruct (lList !! dir) as [layouts|] eqn:Hget; [done|].
  rewrite getLayoutPaths_unfold, join_split, Hget, Hdir. done.
Qed.

(** Without an entry of the layout index on the way up, there is no
    chain. *)
Lemma resolve_layouts_none dir :
  (∀ k, 1 <= k <= length (Path.split dir) →
        lList !! Path.join (take k (Path.split dir)) = None) →
  resolve_layouts listByDirectory options dir = None.
Proof.
  intros Hnone. rewrite resolve_layouts_getLayoutPaths.
  pose proof (getLayoutPaths_rec_nearest
                (length (Path.split dir)) (Path.split dir)
                (split_not_nil dir) ltac:(lia)) as Hnear.
  unfold getLayoutPaths.
  destruct (getLayoutPaths_rec _ _ _ _) as [ls|]; [|done].
  destruct Hnear as (k & Hk & Hsome & _).
  by rewrite Hnone in Hsome.
Qed.

(** C5 (nearest layout, or none). The layout chain of a directory is the
    entry of the layout index under the longest prefix of the directory's
    path segments that has one. Read on directories: [parent/name] has
    its own entry, else what [parent] resolves to, and a directory of one
    segment has its own entry or no chain. The handler that [createApp]
    registers for a component of a directory, on a sub-router mounted on
    the finished router under the prefix of the directory, renders with
    the chain so resolved; when no entry is found on the way up and the
    root directory has no layout file either, the component is answered
    at 200 with the serialization of what it returned and nothing before
    it, also as the answer to a request that its route serves. *)
Theorem nearest_layout_or_unwrapped :
  (∀ dir,
     let paths := Path.split dir in
     match resolve_layouts listByDirectory options dir with
     | Some layouts =>
         ∃ k, 1 <= k <= length paths
              ∧ lList !! Path.join (take k paths) = Some layouts
              ∧ ∀ j, k < j <= length paths →
                     lList !! Path.join (take j paths) = None
     | None =>
         ∀ k, 1 <= k <= length paths →
              lList !! Path.join (take k paths) = None
     end)
  ∧ (∀ parent name,
       (∀ a b, name ≠ a +:+ "/" +:+ b) →
       resolve_layouts listByDirectory options (parent +:+ "/" +:+ name)
       = match lList !! (parent +:+ "/" +:+ name) with
         | Some layouts => Some layouts
         | None => resolve_layouts listByDirectory options parent
         end)
  ∧ (∀ dir,
       (∀ a b, dir ≠ a +:+ "/" +:+ b) →
       resolve_layouts listByDirectory options dir = lList !! dir)
  ∧ (∀ dir content filename (rd : RouteDefault) fc,
       (dir, content) ∈ rMap → (filename, Some rd) ∈ content →
       rd_fetch rd = None → rd_call rd = Some fc →
       ∃ (st : Installation) subApp,
         let o := file_options options
                    (resolve_layouts listByDirectory options dir)
                    (st_heads st) filename in
         let rootPath := Path.rootPath regexp_replace (root options) dir in
         let r : Route :=
           {| r_method := "GET";
              r_path := mergePath rootPath (filePathToPath filename);
              r_target := TClosure (CloComponent fc o);
              r_onError := sub_onError subApp |} in
         AppRoute rootPath subApp ∈ the_app
         ∧ SubGet (filePathToPath filename) (CloComponent fc o) ∈ subApp
         ∧ r ∈ app_routes render options mergePath the_app
         ∧ ((∀ k, 1 <= k <= length (Path.split dir) →
                  lList !! Path.join (take k (Path.split dir)) = None) →
            obj_get (root options +:+ "/_layout.tsx") (LAYOUTS options)
            = None →
            ∀ c w n w',
              fc c (o_head o) w = (Ok (CNode n), w') →
              (∀ next error,
                 run_closure render options (CloComponent fc o) c next error w
                 = (Ok {| status := 200; headers := html_headers;
                          body := render n |}, w'))
              ∧ ∀ path,
                  match_route render options path_match mergePath the_app
                    "GET" path = Some r →
                  dispatch render options path_match mergePath next_of
                    the_app "GET" path c w
                  = (Ok (Some {| status := 200; headers := html_headers;
                                 body := render n |}), w'))).
Proof.
  split; [|split; [|split]].
  - intros dir paths. subst paths. rewrite resolve_layouts_getLayoutPaths.
    apply getLayoutPaths_rec_nearest; [apply split_not_nil|lia].
  - intros parent name Hname. by apply resolve_layouts_parent, split_segment.
  - intros dir Hdir. by apply resolve_layouts_segment, split_segment.
  - intros dir content filename rd fc Hdir Hfile Hfetch Hcall.
    destruct (file_turn_in_app filePathToPath groupByDirectory
                listByDirectory regexp_replace options dir content filename
                rd Hdir Hfile Hfetch) as (st & Hin).
    cbv zeta in Hin. exists st. eexists. cbv zeta.
    assert (Hget : SubGet (filePathToPath filename)
                     (CloComponent fc
                        (file_options options
                           (resolve_layouts listByDirectory options dir)
                           (st_heads st) filename))
                   ∈ st_subApp st
                     ++ route_calls (filePathToPath filename)
                          (file_options options
                             (resolve_layouts listByDirectory options dir)
                             (st_heads st) filename) rd
                     ++ preserved_calls
                          (preservedMap groupByDirectory options) options dir
                          (file_options options
                             (resolve_layouts listByDirectory options dir)
                             (st_heads st) filename)).
    { rewrite !elem_of_app. right. left. by apply component_call_in. }
    split; [exact Hin|]. split; [exact Hget|]. split.
    + apply (call_route_in_app render options mergePath _ _ _ _
               {| r_method := "GET"; r_path := filePathToPath filename;
                  r_target := TClosure (CloComponent fc _);
                  r_onError := None |} Hin Hget).
      simpl. by left.
    + intros Hnone Hroot c w n w' Hfc.
      assert (Hrun : ∀ next error,
        run_closure render options
          (CloComponent fc
             (file_options options
                (resolve_layouts listByDirectory options dir)
                (st_heads st) filename)) c next error w
        = (Ok {| status := 200; headers := html_headers;
                 body := render n |}, w')).
      { intros next error. simpl. simpl in Hfc.
        rewrite (bind_ok _ _ _ _ _ Hfc).
        unfold toWebResponse. simpl.
        rewrite (resolve_layouts_none dir Hnone), Hroot. done. }
      split; [exact Hrun|].
      intros path Hmatch.
      rewrite (dispatch_matched render options path_match mergePath next_of
                 _ _ _ _ _ Hmatch).
      erewrite bind_ok; [done|].
      apply intercept_ok. exact (Hrun _ None).
Qed.

End ResolverFacts.

(** ** Render contexts and preserved files *)

Section DirectoryFacts.

Context {Node Ctx Err World : Type}.
Variable render : Node → string.
Variable filePathToPath : string → string.
Variable groupByDirectory : ∀ A : Type, JsObject A → JsObject (JsObject A).
Variable listByDirectory : ∀ A : Type, JsObject A → gmap string (list string).
Variable regexp_replace : string → string → string.
Variable options : @ServerOptions Node Ctx Err World.
Variable path_match : string → string → bool.
Variable mergePath : string → string → string.
Variable next_of :
  list (@AppCall Node Ctx Err World) → string → string → Ctx
  → @Next Err World.

#[local] Abbreviation SubCall := (@SubCall Node Ctx Err World).
#[local] Abbreviation AppCall := (@AppCall Node Ctx Err World).
#[local] Abbreviation Closure := (@Closure Node Ctx Err World).
#[local] Abbreviation Route := (@Route Node Ctx Err World).
#[local] Abbreviation Installation := (@Installation Node Ctx Err World).
#[local] Abbreviation RouteDefault := (@RouteDefault Node Ctx Err World).
#[local] Abbreviation pMap := (preservedMap groupByDirectory options).
#[local] Abbreviation rMap := (routesMap groupByDirectory options).
#[local] Abbreviation the_app :=
  (createApp filePathToPath groupByDirectory listByDirectory regexp_replace
             options).

Lemma app_notFound_snoc (app : list AppCall) (call : AppCall) :
  app_notFound (app ++ [call])
  = match call with
    | AppNotFound h => Some h
    | _ => app_notFound app
    end.
Proof.
  induction app as [|call' app IH]; simpl.
  - by destruct call.
  - rewrite IH. by destruct call.
Qed.

Lemma app_onError_snoc (app : list AppCall) (call : AppCall) :
  app_onError (app ++ [call])
  = match call with
    | AppOnError h => Some h
    | _ => app_onError app
    end.
Proof.
  induction app as [|call' app IH]; simpl.
  - by destruct call.
  - rewrite IH. by destruct call.
Qed.

(** The handlers that [createApp] leaves on the outermost router when
    the root directory has preserved files. *)
Lemma root_preserved_installed (st : Installation) content :
  obj_get (root options) pMap = Some content →
  let head := new_head options (st_heads st) in
  let app := install_default groupByDirectory options st in
  (∀ notFoundHandler,
     obj_get NOTFOUND_FILENAME content = Some notFoundHandler →
     app_notFound app
     = Some (CloNotFound notFoundHandler
               {| o_head := head; o_layouts := None;
                  o_filename := NOTFOUND_FILENAME |}))
  ∧ (∀ errorHandler,
       obj_get ERROR_FILENAME content = Some errorHandler →
       app_onError app
       = Some (CloError errorHandler
                 {| o_head := head; o_layouts := None;
                    o_filename := ERROR_FILENAME |})).
Proof.
  intros Hroot head app. unfold app, install_default. rewrite Hroot.
  split.
  - intros nf ->. destruct (obj_get ERROR_FILENAME content).
    + by rewrite app_notFound_snoc, app_notFound_snoc.
    + by rewrite app_notFound_snoc.
  - intros eh ->. by rewrite app_onError_snoc.
Qed.

(** C2, as the code has it (render contexts are per route file). The
    render context of a route file without a dispatch capability is
    created once, in the turn of the file: by the factory when one is
    given, else as a new object, the next in the order of creation. Every
    call that the turn makes on the sub-router (the handlers of the file,
    its [APP] handler, the preserved files of the directory) captures
    that render context, and the next file gets the next one. A closure
    hands the render context it captured to user code whatever the
    request; the root-level preserved handlers capture the one created
    after the loops. *)
Theorem render_context_per_route_file dir layouts (st : Installation)
    filename (rd : RouteDefault) :
  rd_fetch rd = None →
  let st' := install_file filePathToPath groupByDirectory regexp_replace options
    dir layouts
               st (filename, Some rd) in
  let head := new_head options (st_heads st) in
  (∃ calls, st_subApp st' = st_subApp st ++ calls
            ∧ Forall (λ call, call_head call = Some head) calls)
  ∧ st_heads st' = S (st_heads st)
  ∧ (opt_createHead options = None → head = st_heads st)
  ∧ (∀ (h : Closure) c next error,
       run_closure render options h c next error
       = (let* res := closure_call h c next error in
          toWebResponse render options res
            (Some (closure_status h)) (closure_options h))
       ∧ closure_call h c next error
         = match h with
           | CloComponent f _ => f c (closure_head h)
           | CloMethod f _ => f c (closure_head h) next
           | CloNotFound f _ => f c None (closure_head h)
           | CloError f _ => f c error (closure_head h)
           end)
  ∧ (∀ (final : Installation) h,
       AppNotFound h ∈ install_default groupByDirectory options final
       ∨ AppOnError h ∈ install_default groupByDirectory options final →
       (AppNotFound h ∈ st_app final ∨ AppOnError h ∈ st_app final)
       ∨ closure_head h = new_head options (st_heads final)).
Proof.
  intros Hfetch st' head. unfold st'.
  rewrite install_file_unmounted by done. simpl.
  split; [|split; [done|split; [|split]]].
  - eexists. split; [done|]. apply Forall_app. split.
    + exact (route_calls_head (filePathToPath filename)
               (file_options options layouts (st_heads st) filename) rd).
    + exact (preserved_calls_head groupByDirectory options dir
               (file_options options layouts (st_heads st) filename)).
  - unfold head, new_head. by intros ->.
  - intros h c next error. split; [apply run_closure_call|by destruct h].
  - intros final h. unfold install_default.
    destruct (obj_get (root options) pMap) as [content|]; [|by left].
    destruct (obj_get NOTFOUND_FILENAME content),
             (obj_get ERROR_FILENAME content);
      rewrite ?elem_of_app, ?list_elem_of_singleton;
      intros Hin; destruct_or?;
      try (by left; left); try (by left; right); simplify_eq; by right.
Qed.

(** The calls of the turn of a route file without a dispatch capability,
    on a sub-router that the finished router mounts under the prefix of
    the directory: the handler of a component, the handlers of the
    method members, and the preserved handlers of a directory other than
    the root that the preserved index has. *)
Lemma file_handlers_in_app dir content filename (rd : RouteDefault) :
  (dir, content) ∈ rMap → (filename, Some rd) ∈ content →
  rd_fetch rd = None →
  ∃ (st : Installation) subApp,
    let o := file_options options
               (resolve_layouts listByDirectory options dir)
               (st_heads st) filename in
    let path := filePathToPath filename in
    AppRoute (Path.rootPath regexp_replace (root options) dir) subApp
    ∈ the_app
    ∧ (∀ fc, rd_call rd = Some fc →
         SubGet path (CloComponent fc o) ∈ subApp)
    ∧ (∀ method member,
         (method, Some member) ∈ rd_entries rd → method ≠ "APP" →
         SubOn method path (CloMethod (as_handler member) o) ∈ subApp)
    ∧ (NoDup pMap.*1 → dir ≠ root options →
       ∀ preserved, obj_get dir pMap = Some preserved →
         (∀ notFoundHandler,
            obj_get NOTFOUND_FILENAME preserved = Some notFoundHandler →
            SubGet "*" (CloNotFound notFoundHandler o) ∈ subApp)
         ∧ (∀ errorHandler,
              obj_get ERROR_FILENAME preserved = Some errorHandler →
              sub_onError subApp = Some (CloError errorHandler o))).
Proof.
  intros Hdir Hfile Hfetch.
  destruct (file_turn_in_app filePathToPath groupByDirectory listByDirectory
              regexp_replace options dir content filename rd Hdir Hfile
              Hfetch) as (st & Hin).
  cbv zeta in Hin. exists st. eexists. cbv zeta.
  split; [exact Hin|]. split; [|split].
  - intros fc Hcall. rewrite !elem_of_app. right. left.
    by apply component_call_in.
  - intros method member Hmember Hne. rewrite !elem_of_app. right. left.
    by apply member_call_in.
  - intros Hnodup Hroot preserved Hp.
    rewrite (preserved_calls_lookup options dir _ preserved pMap
               Hnodup Hroot Hp).
    split.
    + intros nf ->. rewrite !elem_of_app. right. right. left.
      by apply list_elem_of_singleton.
    + intros eh ->. rewrite !app_assoc. by rewrite sub_onError_app.
Qed.

(** C8 (wire conventions). A response that [toWebResponse] builds from
    content carries [Content-Type: text/html; charset=utf-8] and the
    status it was asked for as the [Response] constructor takes it (an
    unsigned short in the range 200 to 599 that is no null body status):
    when no layout throws it is built for such a status and the
    constructor throws for any other. [createApp] registers on the
    sub-router of a directory, mounted on the finished router, the
    component of a route file and its method members, and the not-found
    and error handlers of a directory other than the root; the handlers
    of the root directory go to the outermost router. When its user code
    returns content and no layout throws, the closure of a component or
    of a method member answers with status 200, the closure of a
    not-found handler with 404 and the closure of an error handler with
    500, each with the markup header; and so is a request to the
    finished router answered: at 200 when the route that serves it is
    the one of a component, or of a method member that returns the same
    whatever [next] it is handed (it does not pass the request on), at
    404 when it is a catch-all of a not-found handler or when no route
    accepts the request and the outermost router has a not-found
    handler, at 500 when the route throws under an error handler. *)
Theorem html_responses_and_statuses :
  (∀ n asked o w r w',
     toWebResponse render options (CNode n) asked o w = (Ok r, w') →
     headers r = html_headers
     ∧ status r = unsigned_short (default 200%Z asked)
     ∧ (200 <= status r <= 599)%Z
     ∧ null_body_status (status r) = false
     ∧ ((200 <= default 200%Z asked <= 599)%Z →
        status r = default 200%Z asked))
  ∧ (layouts_return (LAYOUTS options) →
     ∀ n asked o w,
       if accepted_status (default 200%Z asked)
       then ∃ r w', toWebResponse render options (CNode n) asked o w
                    = (Ok r, w')
       else ∃ e w', toWebResponse render options (CNode n) asked o w
                    = (Throw (Platform e), w'))
  ∧ (∀ dir content filename (rd : RouteDefault),
       (dir, content) ∈ rMap → (filename, Some rd) ∈ content →
       rd_fetch rd = None →
       ∃ (st : Installation) subApp,
         let o := file_options options
                    (resolve_layouts listByDirectory options dir)
                    (st_heads st) filename in
         let path := filePathToPath filename in
         AppRoute (Path.rootPath regexp_replace (root options) dir) subApp
         ∈ the_app
         ∧ (∀ fc, rd_call rd = Some fc →
              SubGet path (CloComponent fc o) ∈ subApp)
         ∧ (∀ method member,
              (method, Some member) ∈ rd_entries rd → method ≠ "APP" →
              SubOn method path (CloMethod (as_handler member) o) ∈ subApp)
         ∧ (NoDup pMap.*1 → dir ≠ root options →
            ∀ preserved, obj_get dir pMap = Some preserved →
              (∀ notFoundHandler,
                 obj_get NOTFOUND_FILENAME preserved = Some notFoundHandler →
                 SubGet "*" (CloNotFound notFoundHandler o) ∈ subApp)
              ∧ (∀ errorHandler,
                   obj_get ERROR_FILENAME preserved = Some errorHandler →
                   sub_onError subApp = Some (CloError errorHandler o))))
  ∧ (∀ content,
       obj_get (root options) pMap = Some content →
       (∀ notFoundHandler,
          obj_get NOTFOUND_FILENAME content = Some notFoundHandler →
          ∃ o, app_notFound the_app = Some (CloNotFound notFoundHandler o))
       ∧ (∀ errorHandler,
            obj_get ERROR_FILENAME content = Some errorHandler →
            ∃ o, app_onError the_app = Some (CloError errorHandler o)))
  ∧ (layouts_return (LAYOUTS options) →
     ∀ o c next error w n w1,
       (∀ fc : @FC Node Ctx Err World,
          fc c (o_head o) w = (Ok (CNode n), w1) →
          ∃ html w',
            run_closure render options (CloComponent fc o) c next error w
            = (Ok {| status := 200; headers := html_headers;
                     body := html |}, w'))
       ∧ (∀ handler : @Handler Node Ctx Err World,
            handler c (o_head o) next w = (Ok (CNode n), w1) →
            ∃ html w',
              run_closure render options (CloMethod handler o) c next error w
              = (Ok {| status := 200; headers := html_headers;
                       body := html |}, w'))
       ∧ (∀ notFoundHandler : @PreservedHandler Node Ctx Err World,
            notFoundHandler c None (o_head o) w = (Ok (CNode n), w1) →
            ∃ html w',
              run_closure render options (CloNotFound notFoundHandler o)
                c next error w
              = (Ok {| status := 404; headers := html_headers;
                       body := html |}, w'))
       ∧ (∀ errorHandler : @PreservedHandler Node Ctx Err World,
            errorHandler c error (o_head o) w = (Ok (CNode n), w1) →
            ∃ html w',
              run_closure render options (CloError errorHandler o)
                c next error w
              = (Ok {| status := 500; headers := html_headers;
                       body := html |}, w')))
  ∧ (layouts_return (LAYOUTS options) →
     ∀ method path c w,
       let next := next_of the_app method path c in
       let answered (asked : Z) :=
         ∃ html w',
           dispatch render options path_match mergePath next_of the_app method
             path c w
           = (Ok (Some {| status := asked; headers := html_headers;
                          body := html |}), w') in
       (∀ r : Route,
          match_route render options path_match mergePath the_app
            method path = Some r →
          (∀ fc o n w1,
             r_target r = TClosure (CloComponent fc o) →
             fc c (o_head o) w = (Ok (CNode n), w1) → answered 200%Z)
          ∧ (∀ handler o n w1,
               r_target r = TClosure (CloMethod handler o) →
               (∀ next', handler c (o_head o) next' w = (Ok (CNode n), w1)) →
               answered 200%Z)
          ∧ (∀ notFoundHandler o n w1,
               r_target r = TClosure (CloNotFound notFoundHandler o) →
               notFoundHandler c None (o_head o) w = (Ok (CNode n), w1) →
               answered 404%Z)
          ∧ (∀ errorHandler o e w1 n w2,
               r_onError r = Some (CloError errorHandler o) →
               run_target render options (r_target r) c next w
               = (Throw e, w1) →
               errorHandler c (Some e) (o_head o) w1 = (Ok (CNode n), w2) →
               answered 500%Z)
          ∧ (∀ errorHandler o e w1 n w2,
               r_onError r = None →
               app_onError the_app = Some (CloError errorHandler o) →
               run_target render options (r_target r) c next w
               = (Throw e, w1) →
               errorHandler c (Some e) (o_head o) w1 = (Ok (CNode n), w2) →
               answered 500%Z))
       ∧ (match_route render options path_match mergePath the_app
            method path = None →
          ∀ notFoundHandler o n w1,
            app_notFound the_app = Some (CloNotFound notFoundHandler o) →
            notFoundHandler c None (o_head o) w = (Ok (CNode n), w1) →
            answered 404%Z)).
Proof.
  split; [|split; [|split; [|split; [|split]]]].
  - intros n asked o w r w' Hr.
    destruct (toWebResponse_content render options _ _ _ _ _ _ Hr)
      as (Haccepted & html & ->).
    destruct (accepted_status_range _ Haccepted) as [Hrange Hnull].
    simpl. repeat split; try done; try lia.
    intros Hasked. apply unsigned_short_small. lia.
  - intros Hret n asked o w.
    destruct (accepted_status (default 200%Z asked)) eqn:Haccepted.
    + by apply toWebResponse_returns.
    + by apply toWebResponse_refused.
  - apply file_handlers_in_app.
  - intros content Hroot.
    destruct (root_preserved_installed
                (install_routes filePathToPath groupByDirectory
                   listByDirectory regexp_replace options) content Hroot)
      as [Hnf Heh].
    split.
    + intros nf Hget. eexists. by apply Hnf.
    + intros eh Hget. eexists. by apply Heh.
  - intros Hret o c next error w n w1. repeat split.
    + intros fc Hcall.
      destruct (run_closure_content render options (CloComponent fc o)
                  c next error w n w1 Hret Hcall) as (html & w' & _ & Hrun).
      by exists html, w'.
    + intros handler Hcall.
      destruct (run_closure_content render options (CloMethod handler o)
                  c next error w n w1 Hret Hcall) as (html & w' & _ & Hrun).
      by exists html, w'.
    + intros nf Hcall.
      destruct (run_closure_content render options (CloNotFound nf o)
                  c next error w n w1 Hret Hcall) as (html & w' & _ & Hrun).
      by exists html, w'.
    + intros eh Hcall.
      destruct (run_closure_content render options (CloError eh o)
                  c next error w n w1 Hret Hcall) as (html & w' & _ & Hrun).
      by exists html, w'.
  - intros Hret method path c w next answered. split.
    + intros r Hmatch. repeat split.
      * intros fc o n w1 Htarget Hcall.
        destruct (dispatch_closure_content render options path_match
                    mergePath next_of the_app method path c r (CloComponent fc
                      o)
                    w n w1 Hret Hmatch Htarget Hcall)
          as (html & w' & _ & Hanswer).
        by exists html, w'.
      * intros handler o n w1 Htarget Hcall.
        destruct (dispatch_closure_content render options path_match
                    mergePath next_of the_app method path c r (CloMethod handler
                      o)
                    w n w1 Hret Hmatch Htarget (Hcall _))
          as (html & w' & _ & Hanswer).
        by exists html, w'.
      * intros nf o n w1 Htarget Hcall.
        destruct (dispatch_closure_content render options path_match
                    mergePath next_of the_app method path c r (CloNotFound nf o)
                    w n w1 Hret Hmatch Htarget Hcall)
          as (html & w' & _ & Hanswer).
        by exists html, w'.
      * intros eh o e w1 n w2 Hguard Hthrow Hcall.
        destruct (dispatch_intercepted render options path_match mergePath
          next_of
                    the_app method path c r (CloError eh o) w e w1 n w2
                    Hret Hmatch Hguard Hthrow Hcall)
          as (html & w' & _ & Hanswer).
        by exists html, w'.
      * intros eh o e w1 n w2 Hguard Hroot Hthrow Hcall.
        apply (dispatch_root_intercepted render options path_match mergePath
          next_of
                 the_app method path c r (CloError eh o) w e w1 n w2
                 Hret Hmatch Hguard Hroot Hthrow Hcall).
    + intros Hmatch nf o n w1 Hfound Hcall.
      apply (dispatch_unmatched_content render options path_match mergePath
        next_of
               the_app method path c (CloNotFound nf o) w n w1
               Hret Hmatch Hfound Hcall).
Qed.


End DirectoryFacts.

(** ** The concrete instance *)

Lemma wrap_layouts_return (LAYOUTS : JsObject (string)) :
  layouts_return ((λ entry, (entry.1, Example.wrap entry.2)) <$> LAYOUTS).
Proof.
  unfold layouts_return. apply Forall_fmap, Forall_forall.
  intros [path tag] _ children head filename w. simpl.
  unfold Example.wrap. by eexists _, _.
Qed.

(** Witness of C1: the route of [a/b] under the layouts of [a] and [a/b],
    the chain given shallowest first; and the same page requested from the
    installed application. *)
Lemma layout_chain_deepest_first_witness :
  let pA := "/app/routes/a/_layout.tsx" in
  let pB := "/app/routes/a/b/_layout.tsx" in
  let o := {| o_head := 0; o_layouts := Some [pA; pB];
              o_filename := "index.tsx" |} in
  Path.segments pA < Path.segments pB
  ∧ toWebResponse Example.render Example.nested (CNode "hello") None o []
    = (Ok {| status := 200; headers := html_headers;
             body := "<!doctype html><A><B>hello</B></A>" |}, [])
  ∧ Example.request Example.nested "GET" "/a/b" 1 []
    = (Ok (Some {| status := 200; headers := html_headers;
                   body := "<!doctype html><A><B>hello</B></A>" |}), [0]).
Proof.
  intros pA pB o. split; [vm_compute; lia|]. split; [|reflexivity].
  etrans;
    [apply (proj2 (layout_chain_deepest_first Example.render Example.nested)
              pA pB (Example.wrap "A") (Example.wrap "B") [pA; pB]
              "hello" None o []);
     [vm_compute; lia | reflexivity | reflexivity | by left | reflexivity]
    | reflexivity].
Defined.

(** Witness of C8: the not-found page of a directory; a status that the
    constructor refuses and one that it wraps around. *)
Lemma html_responses_and_statuses_witness :
  let o := {| o_head := 0; o_layouts := None; o_filename := "x.tsx" |} in
  layouts_return (LAYOUTS Example.nested)
  ∧ Example.preserved "missing" 1 None (o_head o) []
    = (Ok (CNode "missing"), [0])
  ∧ (∃ html w',
       run_closure Example.render Example.nested
         (CloNotFound (Example.preserved "missing") o) 1 (ret tt) None []
       = (Ok {| status := 404; headers := html_headers; body := html |}, w'))
  ∧ toWebResponse Example.render Example.nested (CNode "x") (Some 204%Z) o []
    = (Throw (Platform TypeError), [])
  ∧ toWebResponse Example.render Example.nested (CNode "x") (Some 99%Z) o []
    = (Throw (Platform RangeError), [])
  ∧ toWebResponse Example.render Example.nested (CNode "x")
      (Some 4294967496%Z) o []
    = (Ok {| status := 200; headers := html_headers; body := "x" |}, []).
Proof.
  intros o.
  assert (Hret : layouts_return (LAYOUTS Example.nested)).
  { apply (wrap_layouts_return
             [("/app/routes/a/_layout.tsx", "A");
              ("/app/routes/a/b/_layout.tsx", "B")]). }
  split; [exact Hret|]. split; [reflexivity|].
  split; [|by repeat split].
  exact (proj1 (proj2 (proj2
           (proj1 (proj2 (proj2 (proj2 (proj2
              (html_responses_and_statuses Example.render
                 Example.filePathToPath Example.groupByDirectory
                 Example.listByDirectory Example.regexp_replace
                 Example.nested Example.path_match Example.mergePath
                   Example.next_of)))))
              Hret o 1 (ret tt) None [] "missing" [0])))
           (Example.preserved "missing") eq_refl).
Defined.

(** Witness of C5: the directory [c] of an application in which the
    directory [a] has a layout and neither [c] nor the root has one. *)
Lemma nearest_layout_or_unwrapped_witness :
  resolve_layouts Example.listByDirectory Cases.sided "/app/routes/a"
  = Some ["/app/routes/a/_layout.tsx"]
  ∧ resolve_layouts Example.listByDirectory Cases.sided "/app/routes/c"
    = None
  ∧ Example.request Cases.sided "GET" "/a" 1 []
    = (Ok (Some {| status := 200; headers := html_headers;
                   body := "<!doctype html><A>inner</A>" |}), [0])
  ∧ Example.request Cases.sided "GET" "/c/page" 1 []
    = (Ok (Some {| status := 200; headers := html_headers;
                   body := "outer" |}), [1])
  ∧ ∃ (st : @Installation Example.Node Example.Ctx Example.Err Example.World)
      subApp,
      AppRoute "/c" subApp ∈ Example.create Cases.sided
      ∧ SubGet "/page"
          (CloComponent (Example.page "outer")
             (file_options Cases.sided None (st_heads st) "page.tsx"))
        ∈ subApp
      ∧ ∀ next error,
          run_closure Example.render Cases.sided
            (CloComponent (Example.page "outer")
               (file_options Cases.sided None (st_heads st) "page.tsx"))
            1 next error []
          = (Ok {| status := 200; headers := html_headers;
                   body := "outer" |}, [new_head Cases.sided (st_heads st)]).
Proof.
  split; [reflexivity|]. split; [reflexivity|]. split; [reflexivity|].
  split; [reflexivity|].
  destruct (proj2 (proj2 (proj2
              (nearest_layout_or_unwrapped Example.render
                 Example.filePathToPath Example.groupByDirectory
                 Example.listByDirectory Example.regexp_replace Cases.sided
                 Example.path_match Example.mergePath Example.next_of)))
              "/app/routes/c"
              [("page.tsx", Example.component (Example.page "outer"))]
              "page.tsx" (Example.function (Example.page "outer"))
              (Example.page "outer")
              ltac:(right; by left) ltac:(by left) eq_refl eq_refl)
    as (st & subApp & Hin & Hget & _ & Hrun).
  exists st, subApp. split; [exact Hin|]. split; [exact Hget|].
  intros next error.
  refine (proj1 (Hrun _ eq_refl 1 [] "outer" _ eq_refl) next error).
  intros k Hk. simpl in Hk.
  destruct k as [|[|[|[|[|k]]]]]; first [reflexivity | lia].
Defined.


(** Witness of C10: a default export that is a router, a function and an
    object with a [GET] member at once. *)
Lemma dispatch_capability_first_witness :
  let rd : @RouteDefault Example.Node Example.Ctx Example.Err Example.World :=
    {| rd_fetch := Some Example.api;
       rd_call := Some (Example.page "never");
       rd_entries := [("GET", None)] |} in
  let st := install_file Example.filePathToPath Example.groupByDirectory
    Example.regexp_replace
              Example.only_mounted "/app/routes/api" None
              {| st_subApp := []; st_app := []; st_heads := 0 |}
              ("index.ts", Some rd) in
  rd_fetch rd = Some Example.api
  ∧ st_subApp st = [SubRoute "/" Example.api]
  ∧ st_heads st = 0.
Proof.
  intros rd st. split; [reflexivity|].
  destruct (dispatch_capability_first Example.filePathToPath
              Example.groupByDirectory Example.regexp_replace
                Example.only_mounted
              "/app/routes/api" None
              {| st_subApp := []; st_app := []; st_heads := 0 |}
              "index.ts" rd Example.api eq_refl)
    as (Hsame & _ & Hheads).
  split; [|exact Hheads].
  fold st in Hsame. rewrite Hsame. reflexivity.
Defined.

Lemma two_pages_components dir content filename
    (rd : @RouteDefault Example.Node Example.Ctx Example.Err Example.World) :
  (dir, content) ∈ routesMap Example.groupByDirectory Example.two_pages →
  (filename, Some rd) ∈ content →
  plain_component rd.
Proof.
  intros Hdir Hfile.
  change (routesMap Example.groupByDirectory Example.two_pages)
    with [("/app/routes/a",
           [("first.tsx", Example.component (Example.page "first"));
            ("second.tsx", Example.component (Example.page "second"))])]
    in Hdir.
  apply list_elem_of_singleton in Hdir. injection Hdir as _ ->.
  apply elem_of_cons in Hfile as [Hfile|Hfile];
    [|apply list_elem_of_singleton in Hfile];
    injection Hfile as _ ->; by repeat split; eexists.
Qed.

(** Witness of C9: a POST to the page [first] of the application with two
    pages, which has no root-level not-found handler. *)
Lemma component_get_only_witness :
  plain_component (Example.function (Example.page "first"))
  ∧ opt_app Example.two_pages = None
  ∧ "POST" ≠ "GET"
  ∧ Example.request Example.two_pages "POST" "/a/first" 1 [] = (Ok None, []).
Proof.
  split; [by repeat split; eexists|]. split; [reflexivity|].
  split; [discriminate|].
  unfold Example.request, Example.create.
  rewrite (proj2 (component_get_only Example.render Example.filePathToPath
                    Example.groupByDirectory Example.listByDirectory
                      Example.regexp_replace
                    Example.two_pages Example.path_match Example.mergePath
                      Example.next_of)
             two_pages_components eq_refl "POST" "/a/first" 1
             ltac:(discriminate)).
  reflexivity.
Defined.

(** Witness of C2 as the code has it: the first page of the application
    with two pages. *)
Lemma render_context_per_route_file_witness :
  let st := install_file Example.filePathToPath Example.groupByDirectory
    Example.regexp_replace
              Example.two_pages "/app/routes/a" None
              {| st_subApp := []; st_app := []; st_heads := 0 |}
              ("first.tsx", Example.component (Example.page "first")) in
  rd_fetch (Example.function (Example.page "first")) = None
  ∧ call_head <$> st_subApp st = [Some 0; Some 0]
  ∧ st_heads st = 1.
Proof.
  intros st. split; [reflexivity|].
  destruct (render_context_per_route_file Example.render
              Example.filePathToPath Example.groupByDirectory
                Example.regexp_replace
              Example.two_pages "/app/routes/a" None
              {| st_subApp := []; st_app := []; st_heads := 0 |}
              "first.tsx" (Example.function (Example.page "first")) eq_refl)
    as (_ & Hheads & _).
  split; [reflexivity|exact Hheads].
Defined.


(** Counterexample to C2 as stated: two requests, numbered 1 and 2, to
    the page of the nested application. The component is handed the
    render context created for its route file in both: the first request
    leaves [[0]] in the record of the contexts handed over, the second
    adds the same context, and so it is false that distinct requests to
    the route are handed distinct render contexts. *)
Lemma render_context_shared_across_requests :
  (let w1 := (Example.request Example.nested "GET" "/a/b" 1 []).2 in
   let w2 := (Example.request Example.nested "GET" "/a/b" 2 w1).2 in
   w1 = [0] ∧ w2 = [0; 0])
  ∧ ¬ (∀ c1 c2 : Example.Ctx, c1 ≠ c2 →
       ∀ h1 h2,
         h1 ∈ Example.handed Example.nested "GET" "/a/b" c1 →
         h2 ∈ Example.handed Example.nested "GET" "/a/b" c2 →
         h1 ≠ h2).
Proof.
  split; [by split|].
  intros Hfresh.
  apply (Hfresh 1 2 ltac:(done) 0 0); [by left | by left | done].
Qed.

(** C3, evaluated on a directory with two pages and a not-found page.
    The preserved files are installed in the turn of each route file, not
    after the last one: the calls on the sub-router of the directory are
    the handler of [first], the catch-all, the handler of [second], the
    catch-all again, so that a handler of the directory is registered
    after a preserved handler of the directory; the catch-all of the
    first turn then accepts the request for [second], which is answered
    with the not-found page at 404. *)
Theorem preserved_installed_per_file :
  ∃ subApp,
    last (Example.create Example.two_pages) = Some (AppRoute "/a" subApp)
    ∧ is_preserved_call <$> subApp = [false; true; false; true]
    ∧ Example.request Example.two_pages "GET" "/a/second" 1 []
      = (Ok (Some {| status := 404; headers := html_headers;
                     body := "missing" |}), [0])
    ∧ Example.request Example.two_pages "GET" "/a/first" 1 []
      = (Ok (Some {| status := 200; headers := html_headers;
                     body := "first" |}), [0]).
Proof. eexists. split; [reflexivity|]. by repeat split. Qed.


(** * Further properties *)

(** ** Segments and nesting *)

Lemma segments_slash_app (a b : string) :
  Path.segments (a +:+ "/" +:+ b) = Path.segments a + Path.segments b.
Proof.
  unfold Path.segments.
  change (a +:+ "/" +:+ b) with (a +:+ String Path.slash b).
  by rewrite split_slash_app, length_app.
Qed.

Lemma segments_pos (s : string) : 1 <= Path.segments s.
Proof.
  unfold Path.segments. pose proof (split_not_nil s).
  destruct (Path.split s); [done|simpl; lia].
Qed.

(** X1. The comparator of [toWebResponse] puts the layout file of a
    directory after the layout file of any directory below it: whatever
    the directory [d] and the relative path [b], the chain of
    [d/_layout.tsx] and [d/b/_layout.tsx] is sorted to
    [d/b/_layout.tsx], [d/_layout.tsx], from either order. *)
Theorem nested_layout_sorts_first (d b : string) :
  let outer := d +:+ "/" +:+ "_layout.tsx" in
  let inner := d +:+ "/" +:+ (b +:+ "/" +:+ "_layout.tsx") in
  LayoutSort.sort [outer; inner] = [inner; outer]
  ∧ LayoutSort.sort [inner; outer] = [inner; outer].
Proof.
  intros outer inner.
  assert (Hlt : Path.segments outer < Path.segments inner).
  { unfold outer, inner. rewrite !segments_slash_app.
    pose proof (segments_pos b). change (Path.segments "_layout.tsx") with 1.
    lia. }
  split; apply (sort_nested outer inner); auto.
Qed.

(** ** More on the Rendering Composer *)

Section ComposerEdges.

Context {Node Ctx Err World : Type}.
Variable render : Node → string.
Variable options : @ServerOptions Node Ctx Err World.

(** X2. [sort] reorders in place the array that the options of every
    closure of the directory share, so a later request finds the chain
    as an earlier one sorted it. This changes no answer: a request
    renders the same from the chain as first resolved and from the chain
    as a previous request left it. *)
Theorem in_place_sort_harmless res status o w :
  toWebResponse render options res status
    {| o_head := o_head o;
       o_layouts := LayoutSort.sort <$> o_layouts o;
       o_filename := o_filename o |} w
  = toWebResponse render options res status o w.
Proof.
  unfold toWebResponse. destruct res as [n|r]; [|done]. simpl.
  destruct (o_layouts o) as [chain|]; [|done]. simpl.
  destruct chain as [|p ps]; [done|].
  pose proof (sort_perm (p :: ps)) as Hperm.
  destruct (LayoutSort.sort (p :: ps)) as [|q qs] eqn:Hsort.
  - by apply Permutation_nil_cons in Hperm.
  - rewrite <- Hsort. by rewrite sort_idempotent.
Qed.

Lemma apply_layouts_absent chain (res : Node) head filename :
  Forall (λ path, obj_get path (LAYOUTS options) = None) chain →
  apply_layouts options chain res head filename = ret res.
Proof.
  induction 1 as [|path chain Hpath _ IH]; simpl; [done|].
  by rewrite Hpath.
Qed.

(** X3. A path of the chain that names no layout file is passed over.
    When no path of a non-empty chain names one the content is
    serialized as it is, yet under the document preamble, and the layout
    of the root directory is not applied even if there is one: the
    response is built from the preamble and the serialization, with the
    status asked for when it is in the range 200 to 599 and no null body
    status. *)
Theorem chain_of_missing_layouts chain (res : Node) asked o w :
  o_layouts o = Some chain → chain ≠ [] →
  Forall (λ path, obj_get path (LAYOUTS options) = None) chain →
  toWebResponse render options (CNode res) asked o w
  = construct (returnHtml ("<!doctype html>" +:+ render res)
                          (default 200%Z asked)) w
  ∧ ((200 <= default 200%Z asked <= 599)%Z →
     null_body_status (default 200%Z asked) = false →
     toWebResponse render options (CNode res) asked o w
     = (Ok {| status := default 200%Z asked; headers := html_headers;
              body := "<!doctype html>" +:+ render res |}, w)).
Proof.
  intros Hchain Hne Habsent.
  assert (Hbuilt :
    toWebResponse render options (CNode res) asked o w
    = construct (returnHtml ("<!doctype html>" +:+ render res)
                            (default 200%Z asked)) w).
  { unfold toWebResponse. rewrite Hchain.
    destruct chain as [|p ps]; [done|].
    rewrite apply_layouts_absent; [done|].
    rewrite Forall_forall in *. intros path Hpath. apply Habsent.
    by rewrite <- (sort_perm (p :: ps)). }
  split; [exact Hbuilt|].
  intros Hrange Hnull. rewrite Hbuilt.
  destruct (accepted_status_in_range _ Hrange Hnull) as [Haccepted Hshort].
  rewrite construct_accepted by done. by rewrite Hshort.
Qed.

(** X4. An empty chain is no chain: the answer is the one for options
    without [layouts], that is the root layout's wrapping if the root
    directory has a layout file and the bare serialization if not. *)
Theorem empty_chain_is_no_chain res status o w :
  o_layouts o = Some [] →
  toWebResponse render options res status o w
  = toWebResponse render options res status
      {| o_head := o_head o; o_layouts := None;
         o_filename := o_filename o |} w
  ∧ ∀ n defaultLayout,
      res = CNode n →
      obj_get (root options +:+ "/_layout.tsx") (LAYOUTS options)
      = Some defaultLayout →
      toWebResponse render options res status o w
      = (let* wrapped := defaultLayout n (o_head o) (o_filename o) in
         construct (returnHtml (addDocType (render wrapped))
                               (default 200%Z status))) w.
Proof.
  intros Hempty. unfold toWebResponse. rewrite Hempty. simpl.
  split; [done|]. intros n defaultLayout -> Hroot. by rewrite Hroot.
Qed.

Lemma apply_layouts_app l1 l2 (res : Node) head filename w :
  apply_layouts options (l1 ++ l2) res head filename w
  = (let* mid := apply_layouts options l1 res head filename in
     apply_layouts options l2 mid head filename) w.
Proof.
  revert res w. induction l1 as [|p l1 IH]; intros res w; simpl.
  - done.
  - destruct (obj_get p (LAYOUTS options)) as [layout|]; [|apply IH].
    unfold bind in *. destruct (layout res head filename w) as [[n|e] w'].
    + apply IH.
    + done.
Qed.

(** X5. An exception of a layout ends the composition: when the layouts
    of the sorted chain before it have run and it throws, [toWebResponse]
    throws the same exception in the world the layout left, no response
    is built and the layouts after it do not run. *)
Theorem layout_exception_propagates chain before path after layout
    (res mid : Node) status o w w1 e w2 :
  o_layouts o = Some chain → chain ≠ [] →
  LayoutSort.sort chain = before ++ path :: after →
  obj_get path (LAYOUTS options) = Some layout →
  apply_layouts options before res (o_head o) (o_filename o) w
  = (Ok mid, w1) →
  layout mid (o_head o) (o_filename o) w1 = (Throw e, w2) →
  toWebResponse render options (CNode res) status o w = (Throw e, w2).
Proof.
  intros Hchain Hne Hsort Hlayout Hbefore Hthrow.
  unfold toWebResponse. rewrite Hchain.
  destruct chain as [|p ps]; [done|].
  rewrite Hsort. unfold bind at 1. rewrite apply_layouts_app.
  rewrite (bind_ok _ _ _ _ _ Hbefore). simpl. rewrite Hlayout.
  unfold bind at 1. by rewrite Hthrow.
Qed.

End ComposerEdges.

(** ** More on the Layout Resolver *)

Section ResolverEdges.

Context {Node Ctx Err World : Type}.
Variable listByDirectory : ∀ A : Type, JsObject A → gmap string (list string).
Variable options : @ServerOptions Node Ctx Err World.

#[local] Abbreviation lList := (layoutList listByDirectory options).

(** X6. The walk of [getLayoutPaths], read on directories: a directory
    [parent/name] has its own entry of the layout index, else whatever
    its parent resolves to; a directory of one segment has its own
    entry, else nothing. The walk is not stopped at the configured root:
    it goes on to the first segment, the empty string for an absolute
    path. *)
Theorem layouts_inherited_from_parent :
  (∀ parent name,
     Path.split name = [name] →
     resolve_layouts listByDirectory options (parent +:+ "/" +:+ name)
     = match lList !! (parent +:+ "/" +:+ name) with
       | Some layouts => Some layouts
       | None => resolve_layouts listByDirectory options parent
       end)
  ∧ (∀ dir,
       Path.split dir = [dir] →
       resolve_layouts listByDirectory options dir = lList !! dir).
Proof.
  split.
  - intros parent name Hname.
    set (dir := parent +:+ "/" +:+ name).
    unfold resolve_layouts at 1.
    destruct (lList !! dir) as [layouts|] eqn:Hdir; [done|].
    rewrite getLayoutPaths_unfold, join_split, Hdir.
    unfold dir. change (parent +:+ "/" +:+ name)
      with (parent +:+ String Path.slash name).
    rewrite split_slash_app, Hname, removelast_snoc.
    pose proof (split_not_nil parent).
    destruct (Path.split parent) as [|p ps] eqn:Hsplit; [done|].
    rewrite <- Hsplit. symmetry. apply resolve_layouts_getLayoutPaths.
  - intros dir Hdir. unfold resolve_layouts.
    destruct (lList !! dir) as [layouts|] eqn:Hget; [done|].
    rewrite getLayoutPaths_unfold, join_split, Hget, Hdir. done.
Qed.

End ResolverEdges.

(** ** The mount prefix *)

Lemma stripRoot_app (root rest : string) :
  Path.stripRoot root (root +:+ rest) = Some rest.
Proof.
  induction root as [|a root IH]; simpl; [by destruct rest|].
  by rewrite Ascii.eqb_refl.
Qed.

Lemma stripRoot_Some (root dir rest : string) :
  Path.stripRoot root dir = Some rest → dir = root +:+ rest.
Proof.
  revert dir. induction root as [|a root IH]; intros dir; simpl.
  - by intros [= ->].
  - destruct dir as [|b dir]; [done|].
    destruct (Ascii.eqb_spec a b) as [->|]; [|done].
    intros Hstrip. by rewrite (IH _ Hstrip).
Qed.

(** X7. The prefix under which the sub-router of a directory is mounted,
    for a root without syntax characters of regular expressions, such as
    the default root: the directory without the leading root, that is
    the empty prefix for the root directory itself, the rest of the path
    for a directory below it, and the whole directory, unchanged, when
    it does not begin with the root. A root with such a character, as
    ['/app/(site)'], is not covered: its pattern does not stand for
    itself. *)
Theorem mount_prefix_relative_to_root
    (regexp_replace : string → string → string) (root : string) :
  (Path.literal root = true →
   (∀ rest, Path.rootPath regexp_replace root (root +:+ rest) = rest)
   ∧ Path.rootPath regexp_replace root root = ""
   ∧ (∀ dir, (∀ rest, dir ≠ root +:+ rest) →
             Path.rootPath regexp_replace root dir = dir))
  ∧ Path.literal "/app/routes" = true
  ∧ Path.literal "/app/(site)" = false.
Proof.
  unfold Path.rootPath. split; [|done].
  intros ->. split; [|split].
  - intros rest. by rewrite stripRoot_app.
  - assert (Hroot : root = root +:+ "").
    { clear. induction root as [|a r IH]; [done|].
      change (String a r +:+ "") with (String a (r +:+ "")). congruence. }
    pose proof (stripRoot_app root "") as Hstrip.
    rewrite <- Hroot in Hstrip. by rewrite Hstrip.
  - intros dir Hdir.
    destruct (Path.stripRoot root dir) as [rest|] eqn:Hstrip; [|done].
    by apply stripRoot_Some, Hdir in Hstrip.
Qed.

(** ** More on the Route Installer *)

Section InstallationFacts.

Context {Node Ctx Err World : Type}.
Variable render : Node → string.
Variable filePathToPath : string → string.
Variable groupByDirectory : ∀ A : Type, JsObject A → JsObject (JsObject A).
Variable listByDirectory : ∀ A : Type, JsObject A → gmap string (list string).
Variable regexp_replace : string → string → string.
Variable options : @ServerOptions Node Ctx Err World.
Variable path_match : string → string → bool.
Variable mergePath : string → string → string.
Variable next_of :
  list (@AppCall Node Ctx Err World) → string → string → Ctx
  → @Next Err World.

#[local] Abbreviation SubCall := (@SubCall Node Ctx Err World).
#[local] Abbreviation AppCall := (@AppCall Node Ctx Err World).
#[local] Abbreviation Installation := (@Installation Node Ctx Err World).
#[local] Abbreviation RouteFile := (@RouteFile Node Ctx Err World).
#[local] Abbreviation RouteDefault := (@RouteDefault Node Ctx Err World).
#[local] Abbreviation pMap := (preservedMap groupByDirectory options).
#[local] Abbreviation rMap := (routesMap groupByDirectory options).
#[local] Abbreviation install :=
  (install_file filePathToPath groupByDirectory regexp_replace options).
#[local] Abbreviation routes_installed :=
  (install_routes filePathToPath groupByDirectory listByDirectory regexp_replace
    options).
#[local] Abbreviation the_app :=
  (createApp filePathToPath groupByDirectory listByDirectory regexp_replace
    options).

(** What holds of the outermost router when the loops start, is
    established for the empty sub-router of each directory, is kept by
    the turn of each route file and is handed back at the end of each
    directory, holds when the loops end. *)
Lemma install_routes_invariant
    (A : list AppCall → nat → Prop)
    (P : string → JsObject RouteFile → Installation → Prop) :
  A (default [] (opt_app options)) 0 →
  (∀ dir content app heads,
     (dir, content) ∈ rMap → A app heads →
     P dir content {| st_subApp := []; st_app := app; st_heads := heads |}) →
  (∀ dir content entry st,
     (dir, content) ∈ rMap → entry ∈ content → P dir content st →
     P dir content
       (install dir (resolve_layouts listByDirectory options dir) st entry)) →
  (∀ dir content st, P dir content st → A (st_app st) (st_heads st)) →
  A (st_app routes_installed) (st_heads routes_installed).
Proof.
  intros Hinit Hreset Hstep Hback. unfold install_routes.
  assert (Hdirs : ∀ dirs (st : Installation),
    (∀ e, e ∈ dirs → e ∈ rMap) → A (st_app st) (st_heads st) →
    A (st_app (fold_left
                 (install_dir filePathToPath groupByDirectory listByDirectory
                   regexp_replace
                              options) dirs st))
      (st_heads (fold_left
                   (install_dir filePathToPath groupByDirectory
                                listByDirectory regexp_replace
                                  options) dirs st))).
  { induction dirs as [|[dir content] dirs IH]; intros st Hsub Hst; simpl;
      [done|].
    apply IH; [intros e He; apply Hsub; by right|].
    unfold install_dir. apply (Hback dir content).
    assert (Hin : (dir, content) ∈ rMap) by (apply Hsub; by left).
    assert (Hfiles : ∀ files (st' : Installation),
      (∀ e, e ∈ files → e ∈ content) → P dir content st' →
      P dir content
        (fold_left (install dir (resolve_layouts listByDirectory options dir))
                   files st')).
    { induction files as [|entry files IHf]; intros st' Hsubf Hst'; simpl;
        [done|].
      apply IHf; [intros e He; apply Hsubf; by right|].
      apply Hstep; [done| |done]. apply Hsubf. by left. }
    apply Hfiles; [done|]. by apply Hreset. }
  apply Hdirs; [done|]. exact Hinit.
Qed.

(** The calls of the turn of a file capture the options of the file. *)
Lemma route_calls_options path o (rd : RouteDefault) :
  Forall (λ call, ∀ o', call_options call = Some o' → o' = o)
         (route_calls path o rd).
Proof.
  unfold route_calls. apply Forall_app. split.
  - destruct (rd_call rd); repeat constructor. by intros o' [= <-].
  - apply fold_left_Forall; [|constructor].
    intros s [method [member|]] Hs; simpl;
      destruct (String.eqb method "APP"); try done;
      apply Forall_app; split; try done;
      repeat constructor; by intros o' [= <-].
Qed.

Lemma preserved_calls_options dir o :
  Forall (λ call, ∀ o', call_options call = Some o' → o' = o)
         (preserved_calls pMap options dir o).
Proof.
  unfold preserved_calls. apply fold_left_Forall; [|constructor].
  intros s [preservedDir content] Hs. simpl.
  destruct (_ && _); [|done].
  destruct (obj_get NOTFOUND_FILENAME content),
           (obj_get ERROR_FILENAME content);
    rewrite ?Forall_app; repeat split; try done;
    repeat constructor; by intros o' [= <-].
Qed.

(** X8. The guard [dir !== root] and the comparison with the keys of the
    preserved index: the turn of a route file installs no preserved file
    on the sub-router when the directory is the root directory, whatever
    preserved files the root has, and none when the preserved index
    does not have the directory. *)
Theorem no_preserved_calls_for_root
    (l : JsObject (JsObject (@PreservedHandler Node Ctx Err World)))
    dir o :
  dir = root options ∨ dir ∉ l.*1 →
  preserved_calls l options dir o = [].
Proof.
  intros [-> | Habsent]; [|by apply preserved_calls_absent].
  unfold preserved_calls.
  induction l as [|[k pc] l IH]; simpl; [done|].
  by rewrite String.eqb_refl.
Qed.

Lemma app_notFound_mounts (app : list AppCall) :
  Forall (λ call, is_mount call = true) app →
  app_notFound app = None ∧ app_onError app = None.
Proof.
  induction 1 as [|call app Hcall _ [IHn IHe]]; simpl; [done|].
  rewrite IHn, IHe. by destruct call.
Qed.

Lemma routes_only_mounts :
  ∃ mounts, st_app routes_installed = default [] (opt_app options) ++ mounts
            ∧ Forall (λ call, is_mount call = true) mounts.
Proof.
  apply (install_routes_invariant
           (λ app _, ∃ mounts, app = default [] (opt_app options) ++ mounts
                               ∧ Forall (λ call, is_mount call = true) mounts)
           (λ _ _ st, ∃ mounts,
              st_app st = default [] (opt_app options) ++ mounts
              ∧ Forall (λ call, is_mount call = true) mounts)).
  - exists []. by rewrite app_nil_r.
  - done.
  - intros dir content [filename [rd|]] st _ _ (mounts & Happ & Hmounts);
      simpl; [|by exists mounts].
    destruct (rd_fetch rd); simpl; rewrite Happ, <- app_assoc;
      eexists; (split; [done|]); apply Forall_app; split; try done;
      by repeat constructor.
  - done.
Qed.

(** X9. What [createApp] does to the router: the calls it was given are
    kept in front, unchanged; the loops add mounts and nothing else; at
    most one not-found handler and then at most one error handler
    follow, those of the root directory. *)
Theorem given_router_extended :
  ∃ mounts preserved,
    the_app = default [] (opt_app options) ++ mounts ++ preserved
    ∧ Forall (λ call, is_mount call = true) mounts
    ∧ ((∃ notFound onError,
          preserved = [AppNotFound notFound; AppOnError onError])
       ∨ (∃ notFound, preserved = [AppNotFound notFound])
       ∨ (∃ onError, preserved = [AppOnError onError])
       ∨ preserved = []).
Proof.
  destruct routes_only_mounts as (mounts & Happ & Hmounts).
  exists mounts. unfold createApp, install_default. rewrite Happ.
  destruct (obj_get (root options) pMap) as [content|].
  - destruct (obj_get NOTFOUND_FILENAME content) as [nf|],
             (obj_get ERROR_FILENAME content) as [eh|].
    + eexists [AppNotFound _; AppOnError _]. rewrite <- !app_assoc.
      split; [reflexivity|]. split; [done|]. left. eauto.
    + eexists [AppNotFound _]. rewrite <- !app_assoc.
      split; [reflexivity|]. split; [done|]. right. left. eauto.
    + eexists [AppOnError _]. rewrite <- !app_assoc.
      split; [reflexivity|]. split; [done|]. right. right. left. eauto.
    + exists []. rewrite app_nil_r. split; [done|]. split; [done|].
      by repeat right.
  - exists []. rewrite app_nil_r. split; [done|]. split; [done|].
    by repeat right.
Qed.

(** X10. Without preserved files in the root directory, and starting
    from a new router, [createApp] registers no not-found handler and no
    error handler on the outermost router: a request that no route
    accepts gets the default answer of the router, in an unchanged
    world. *)
Theorem no_root_preserved_no_fallback method path c w :
  opt_app options = None →
  obj_get (root options) pMap = None →
  app_notFound the_app = None
  ∧ app_onError the_app = None
  ∧ (match_route render options path_match mergePath the_app method path
     = None →
     dispatch render options path_match mergePath next_of the_app method path c
       w
     = (Ok None, w)).
Proof.
  intros Happ Hroot.
  destruct routes_only_mounts as (mounts & Hmounts & Hall).
  rewrite Happ in Hmounts. simpl in Hmounts.
  assert (Hthe : the_app = mounts).
  { unfold createApp, install_default. by rewrite Hroot. }
  destruct (app_notFound_mounts mounts Hall) as [Hnf Hoe].
  rewrite Hthe. split; [done|]. split; [done|].
  intros Hmatch. unfold dispatch. by rewrite Hmatch, Hnf.
Qed.

End InstallationFacts.

Section InstallationCensus.

Context {Node Ctx Err World : Type}.
Variable render : Node → string.
Variable filePathToPath : string → string.
Variable groupByDirectory : ∀ A : Type, JsObject A → JsObject (JsObject A).
Variable listByDirectory : ∀ A : Type, JsObject A → gmap string (list string).
Variable regexp_replace : string → string → string.
Variable options : @ServerOptions Node Ctx Err World.
Variable mergePath : string → string → string.
Variable next_of :
  list (@AppCall Node Ctx Err World) → string → string → Ctx
  → @Next Err World.

#[local] Abbreviation SubCall := (@SubCall Node Ctx Err World).
#[local] Abbreviation AppCall := (@AppCall Node Ctx Err World).
#[local] Abbreviation Installation := (@Installation Node Ctx Err World).
#[local] Abbreviation RouteFile := (@RouteFile Node Ctx Err World).
#[local] Abbreviation RouteDefault := (@RouteDefault Node Ctx Err World).
#[local] Abbreviation Member := (@Member Node Ctx Err World).
#[local] Abbreviation pMap := (preservedMap groupByDirectory options).
#[local] Abbreviation rMap := (routesMap groupByDirectory options).
#[local] Abbreviation install :=
  (install_file filePathToPath groupByDirectory regexp_replace options).
#[local] Abbreviation routes_installed :=
  (install_routes filePathToPath groupByDirectory listByDirectory regexp_replace
    options).
#[local] Abbreviation the_app :=
  (createApp filePathToPath groupByDirectory listByDirectory regexp_replace
    options).

Lemma install_file_census dir layouts (st : Installation) entry :
  st_heads (install dir layouts st entry)
  = st_heads st + length (List.filter installable [entry])
  ∧ length (st_app (install dir layouts st entry))
    = length (st_app st) + length (List.filter has_default [entry]).
Proof.
  destruct entry as [filename [rd|]]; simpl; [|lia].
  unfold installable, has_default. simpl.
  destruct (rd_fetch rd); simpl; rewrite length_app; simpl; lia.
Qed.

Lemma install_files_census dir layouts content (st : Installation) :
  st_heads (fold_left (install dir layouts) content st)
  = st_heads st + length (List.filter installable content)
  ∧ length (st_app (fold_left (install dir layouts) content st))
    = length (st_app st) + length (List.filter has_default content).
Proof.
  revert st. induction content as [|entry content IH]; intros st.
  - simpl. lia.
  - change (fold_left (install dir layouts) (entry :: content) st)
      with (fold_left (install dir layouts) content
              (install dir layouts st entry)).
    destruct (IH (install dir layouts st entry)) as [-> ->].
    destruct (install_file_census dir layouts st entry) as [-> ->].
    change (entry :: content) with ([entry] ++ content).
    rewrite !List.filter_app, !length_app. lia.
Qed.

Lemma install_dirs_census dirs (st : Installation) :
  st_heads (fold_left
              (install_dir filePathToPath groupByDirectory listByDirectory
                regexp_replace
                           options) dirs st)
  = st_heads st + length (List.filter installable (concat dirs.*2))
  ∧ length (st_app (fold_left
                      (install_dir filePathToPath groupByDirectory
                                   listByDirectory regexp_replace
                                     options) dirs st))
    = length (st_app st) + length (List.filter has_default (concat dirs.*2)).
Proof.
  revert st. induction dirs as [|[dir content] dirs IH]; intros st.
  - simpl. lia.
  - cbn [fold_left].
    destruct (IH (install_dir filePathToPath groupByDirectory
                    listByDirectory regexp_replace options st (dir,
                      content))) as [-> ->].
    unfold install_dir.
    destruct (install_files_census dir
                (resolve_layouts listByDirectory options dir) content
                {| st_subApp := []; st_app := st_app st;
                   st_heads := st_heads st |}) as [-> ->].
    simpl st_heads. simpl st_app.
    change (concat ((dir, content) :: dirs).*2)
      with (content ++ concat dirs.*2).
    rewrite !List.filter_app, !length_app. lia.
Qed.

(** X11. The census of an installation that starts from a new router:
    one mount on the outermost router for each route file that has a
    default export, and one render context for each route file whose
    default export has no [fetch] member; a route file without a default
    export gets neither. The render context of the root-level handlers
    is created after these. *)
Theorem one_mount_and_one_head_per_file :
  let files := concat rMap.*2 in
  st_heads routes_installed = length (List.filter installable files)
  ∧ (opt_app options = None →
     length (st_app routes_installed)
     = length (List.filter has_default files)
     ∧ Forall (λ call, is_mount call = true) (st_app routes_installed)).
Proof.
  intros files. unfold install_routes.
  destruct (install_dirs_census rMap
              {| st_subApp := []; st_app := default [] (opt_app options);
                 st_heads := 0 |}) as [Hheads Happ].
  split; [exact Hheads|].
  intros Hnew. split.
  - rewrite Happ. simpl. by rewrite Hnew.
  - destruct (routes_only_mounts filePathToPath groupByDirectory
                listByDirectory regexp_replace options) as (mounts & Hmounts &
                  Hall).
    unfold install_routes in Hmounts. rewrite Hmounts, Hnew. done.
Qed.

Lemma captured_install dir layouts (st : Installation)
    (entry : string * option RouteDefault) call :
  captured (install dir layouts st entry) call →
  captured st call
  ∨ (∃ filename rd,
       entry = (filename, Some rd) ∧ rd_fetch rd = None
       ∧ call ∈ route_calls (filePathToPath filename)
                  (file_options options layouts (st_heads st) filename) rd
                ++ preserved_calls pMap options dir
                     (file_options options layouts (st_heads st) filename))
  ∨ call_options call = None.
Proof.
  destruct entry as [filename [rd|]]; [|by left].
  destruct (rd_fetch rd) as [mounted|] eqn:Hfetch.
  - rewrite (install_file_mounted filePathToPath groupByDirectory
               regexp_replace options dir layouts st filename rd mounted
               Hfetch).
    unfold captured. simpl.
    intros [Hsub | (rp & sub & Hin & Hcall)].
    + apply elem_of_app in Hsub as [?|Hnew]; [by left; left|].
      apply list_elem_of_singleton in Hnew as ->. by right; right.
    + apply elem_of_app in Hin as [?|Hnew]; [left; right; eauto|].
      apply list_elem_of_singleton in Hnew. injection Hnew as -> ->.
      apply elem_of_app in Hcall as [?|Hnew]; [by left; left|].
      apply list_elem_of_singleton in Hnew as ->. by right; right.
  - pose proof (install_file_unmounted filePathToPath groupByDirectory
    regexp_replace
                  options dir layouts st filename rd Hfetch) as Hturn.
    cbv zeta in Hturn. rewrite Hturn.
    unfold captured. simpl.
    intros [Hsub | (rp & sub & Hin & Hcall)].
    + apply elem_of_app in Hsub as [?|Hnew]; [by left; left|].
      right. left. by exists filename, rd.
    + apply elem_of_app in Hin as [?|Hnew]; [left; right; eauto|].
      apply list_elem_of_singleton in Hnew. injection Hnew as -> ->.
      apply elem_of_app in Hcall as [?|Hnew]; [by left; left|].
      right. left. by exists filename, rd.
Qed.

Lemma subApp_install dir layouts (st : Installation)
    (entry : string * option RouteDefault) call :
  call ∈ st_subApp (install dir layouts st entry) →
  call ∈ st_subApp st
  ∨ (∃ filename rd,
       entry = (filename, Some rd) ∧ rd_fetch rd = None
       ∧ call ∈ route_calls (filePathToPath filename)
                  (file_options options layouts (st_heads st) filename) rd
                ++ preserved_calls pMap options dir
                     (file_options options layouts (st_heads st) filename))
  ∨ call_options call = None.
Proof.
  destruct entry as [filename [rd|]]; [|by left].
  destruct (rd_fetch rd) as [mounted|] eqn:Hfetch.
  - rewrite (install_file_mounted filePathToPath groupByDirectory
               regexp_replace options dir layouts st filename rd mounted
               Hfetch). simpl.
    intros [?|Hnew]%elem_of_app; [by left|].
    apply list_elem_of_singleton in Hnew as ->. by right; right.
  - pose proof (install_file_unmounted filePathToPath groupByDirectory
    regexp_replace
                  options dir layouts st filename rd Hfetch) as Hturn.
    cbv zeta in Hturn. rewrite Hturn. simpl.
    intros [?|Hnew]%elem_of_app; [by left|].
    right. left. by exists filename, rd.
Qed.

Lemma install_file_heads_le dir layouts (st : Installation) entry :
  st_heads st <= st_heads (install dir layouts st entry).
Proof.
  destruct (install_file_census dir layouts st entry) as [-> _]. lia.
Qed.

Lemma install_file_fresh dir layouts (st : Installation) entry :
  opt_createHead options = None →
  heads_fresh st → heads_fresh (install dir layouts st entry).
Proof.
  intros Hnew [Hlt Hsame].
  assert (Hadded : ∀ call o filename rd,
    entry = (filename, Some rd) → rd_fetch rd = None →
    call ∈ route_calls (filePathToPath filename)
             (file_options options layouts (st_heads st) filename) rd
           ++ preserved_calls pMap options dir
                (file_options options layouts (st_heads st) filename) →
    call_options call = Some o →
    o = file_options options layouts (st_heads st) filename
    ∧ o_head o = st_heads st
    ∧ st_heads (install dir layouts st entry) = S (st_heads st)).
  { intros call o filename rd -> Hfetch Hin Ho.
    assert (o = file_options options layouts (st_heads st) filename) as ->.
    { apply elem_of_app in Hin as [Hin|Hin].
      - pose proof (route_calls_options (filePathToPath filename)
                      (file_options options layouts (st_heads st) filename)
                      rd) as Hall.
        rewrite Forall_forall in Hall. by apply (Hall call).
      - pose proof (preserved_calls_options groupByDirectory options dir
                      (file_options options layouts (st_heads st) filename))
          as Hall.
        rewrite Forall_forall in Hall. by apply (Hall call). }
    split; [done|]. split.
    - simpl. unfold new_head. by rewrite Hnew.
    - by rewrite install_file_unmounted. }
  pose proof (install_file_heads_le dir layouts st entry) as Hle.
  split.
  - intros call o Hcap Ho.
    apply captured_install in Hcap as [Hold | [(f & rd & He & Hf & Hin) | Hno]].
    + specialize (Hlt call o Hold Ho). lia.
    + destruct (Hadded call o f rd He Hf Hin Ho) as (_ & Hh & Hs). lia.
    + congruence.
  - intros call1 call2 o1 o2 Hcap1 Hcap2 Ho1 Ho2 Heq.
    apply captured_install in Hcap1
      as [Hold1 | [(f1 & rd1 & He1 & Hf1 & Hin1) | Hno1]]; [| |congruence];
    apply captured_install in Hcap2
      as [Hold2 | [(f2 & rd2 & He2 & Hf2 & Hin2) | Hno2]]; try congruence.
    + by apply (Hsame call1 call2).
    + destruct (Hadded call2 o2 f2 rd2 He2 Hf2 Hin2 Ho2) as (_ & Hh & _).
      specialize (Hlt call1 o1 Hold1 Ho1). lia.
    + destruct (Hadded call1 o1 f1 rd1 He1 Hf1 Hin1 Ho1) as (_ & Hh & _).
      specialize (Hlt call2 o2 Hold2 Ho2). lia.
    + destruct (Hadded call1 o1 f1 rd1 He1 Hf1 Hin1 Ho1) as (-> & _ & _).
      destruct (Hadded call2 o2 f2 rd2 He2 Hf2 Hin2 Ho2) as (-> & _ & _).
      rewrite He1 in He2. by injection He2 as -> _.
Qed.

Lemma install_routes_fresh :
  opt_createHead options = None → opt_app options = None →
  heads_fresh {| st_subApp := []; st_app := st_app routes_installed;
                 st_heads := st_heads routes_installed |}.
Proof.
  intros Hnew Happ.
  apply (install_routes_invariant filePathToPath groupByDirectory
           listByDirectory regexp_replace options
           (λ app heads, heads_fresh {| st_subApp := []; st_app := app;
                                        st_heads := heads |})
           (λ _ _ st, heads_fresh st)).
  - rewrite Happ. split.
    + intros call o [Hsub | (rp & sub & Hin & _)]; simpl in *;
        [by apply elem_of_nil in Hsub | by apply elem_of_nil in Hin].
    + intros call1 call2 o1 o2 [Hsub | (rp & sub & Hin & _)]; simpl in *;
        [by apply elem_of_nil in Hsub | by apply elem_of_nil in Hin].
  - done.
  - intros dir content entry st _ _ Hst. by apply install_file_fresh.
  - intros dir content st [Hlt Hsame].
    assert (Hcap : ∀ call,
      captured {| st_subApp := []; st_app := st_app st;
                  st_heads := st_heads st |} call → captured st call).
    { intros call [Hsub | Hm]; [by apply elem_of_nil in Hsub | by right]. }
    split.
    + intros call o Hc. apply (Hlt call o). by apply Hcap.
    + intros call1 call2 o1 o2 Hc1 Hc2.
      apply (Hsame call1 call2 o1 o2); by apply Hcap.
Qed.

Lemma mount_of_the_app rootPath (subApp : list SubCall) :
  AppRoute rootPath subApp ∈ the_app →
  opt_app options = None →
  AppRoute rootPath subApp ∈ st_app routes_installed.
Proof.
  intros Hin _. unfold createApp, install_default in Hin.
  destruct (obj_get (root options) pMap) as [content|]; [|done].
  destruct (obj_get NOTFOUND_FILENAME content),
           (obj_get ERROR_FILENAME content);
    rewrite ?elem_of_app, ?list_elem_of_singleton in Hin;
    destruct_or?; by simplify_eq.
Qed.

(** X12. With [new Head] (no factory) and a new router, the render
    context of the root-level not-found and error handlers, created
    after the loops, is none of those that the handlers of the route
    files capture: each of these was created earlier. *)
Theorem root_head_not_shared rootPath subApp call o :
  opt_createHead options = None → opt_app options = None →
  AppRoute rootPath subApp ∈ the_app →
  call ∈ subApp → call_options call = Some o →
  o_head o < new_head options (st_heads routes_installed)
  ∧ o_head o ≠ new_head options (st_heads routes_installed).
Proof.
  intros Hnew Happ Hin Hcall Ho.
  destruct (install_routes_fresh Hnew Happ) as [Hlt _].
  assert (o_head o < st_heads routes_installed) as Hless.
  { apply (Hlt call o); [|done]. right. exists rootPath, subApp.
    split; [|done]. by apply mount_of_the_app. }
  unfold new_head. rewrite Hnew. lia.
Qed.

(** X13. With [new Head] and a new router, two calls anywhere in the
    finished router that capture the same render context capture the
    same options, hence were made in the turn of the same route file:
    route files never share a render context, within a directory or
    across directories. *)
Theorem route_files_do_not_share_heads
    rootPath1 subApp1 call1 o1 rootPath2 subApp2 call2 o2 :
  opt_createHead options = None → opt_app options = None →
  AppRoute rootPath1 subApp1 ∈ the_app → call1 ∈ subApp1 →
  AppRoute rootPath2 subApp2 ∈ the_app → call2 ∈ subApp2 →
  call_options call1 = Some o1 → call_options call2 = Some o2 →
  o_head o1 = o_head o2 →
  o1 = o2.
Proof.
  intros Hnew Happ Hin1 Hcall1 Hin2 Hcall2 Ho1 Ho2 Heq.
  destruct (install_routes_fresh Hnew Happ) as [_ Hsame].
  apply (Hsame call1 call2 o1 o2); try done.
  - right. exists rootPath1, subApp1. split; [|done]. by apply mount_of_the_app.
  - right. exists rootPath2, subApp2. split; [|done]. by apply mount_of_the_app.
Qed.

(** X14. Every handler on the sub-router of a directory renders with
    the layout chain resolved for that directory, the preserved handlers
    of the directory included, and is told the name of a route file of
    the directory, the one in whose turn it was registered: a not-found
    or error page of a directory is rendered under the file name of a
    route, not under its own. Each mount is at the prefix of the
    directory. *)
Theorem handlers_render_with_directory_chain rootPath subApp :
  opt_app options = None →
  AppRoute rootPath subApp ∈ the_app →
  ∃ dir content,
    (dir, content) ∈ rMap
    ∧ rootPath = Path.rootPath regexp_replace (root options) dir
    ∧ ∀ call o,
        call ∈ subApp → call_options call = Some o →
        o_layouts o = resolve_layouts listByDirectory options dir
        ∧ o_filename o ∈ content.*1.
Proof.
  intros Happ Hin. apply mount_of_the_app in Hin; [|done].
  revert rootPath subApp Hin.
  apply (install_routes_invariant filePathToPath groupByDirectory
           listByDirectory regexp_replace options
           (λ app _, ∀ rootPath subApp, AppRoute rootPath subApp ∈ app →
              ∃ dir content,
                (dir, content) ∈ rMap
                ∧ rootPath = Path.rootPath regexp_replace (root options) dir
                ∧ ∀ call o,
                    call ∈ subApp → call_options call = Some o →
                    o_layouts o = resolve_layouts listByDirectory options dir
                    ∧ o_filename o ∈ content.*1)
           (λ dir content st,
              (dir, content) ∈ rMap
              ∧ (∀ rootPath subApp, AppRoute rootPath subApp ∈ st_app st →
                 ∃ dir content,
                   (dir, content) ∈ rMap
                   ∧ rootPath = Path.rootPath regexp_replace (root options) dir
                   ∧ ∀ call o,
                       call ∈ subApp → call_options call = Some o →
                       o_layouts o
                       = resolve_layouts listByDirectory options dir
                       ∧ o_filename o ∈ content.*1)
              ∧ ∀ call o,
                  call ∈ st_subApp st → call_options call = Some o →
                  o_layouts o = resolve_layouts listByDirectory options dir
                  ∧ o_filename o ∈ content.*1)).
  - rewrite Happ. intros rp sub Hnil. by apply elem_of_nil in Hnil.
  - intros dir content app heads Hdir Hall. split; [done|]. split; [done|].
    intros call o Hnil. by apply elem_of_nil in Hnil.
  - intros dir content [filename route] st Hdir Hentry (_ & Hall & Hsub).
    split; [done|].
    destruct route as [rd|]; [|by split].
    assert (Hnew : ∀ call o,
      call ∈ st_subApp (install dir
                          (resolve_layouts listByDirectory options dir) st
                          (filename, Some rd)) →
      call_options call = Some o →
      o_layouts o = resolve_layouts listByDirectory options dir
      ∧ o_filename o ∈ content.*1).
    { intros call o Hcall Ho.
      apply subApp_install in Hcall
        as [Hold | [(f & rd' & He & _ & Hadd) | Hno]]; [| |congruence].
      - by apply (Hsub call).
      - injection He as <- <-.
        assert (o = file_options options
                      (resolve_layouts listByDirectory options dir)
                      (st_heads st) filename) as ->.
        { apply elem_of_app in Hadd as [Hadd|Hadd].
          - pose proof (route_calls_options (filePathToPath filename)
                          (file_options options
                             (resolve_layouts listByDirectory options dir)
                             (st_heads st) filename) rd) as Hopts.
            rewrite Forall_forall in Hopts. by apply (Hopts call).
          - pose proof (preserved_calls_options groupByDirectory options dir
                          (file_options options
                             (resolve_layouts listByDirectory options dir)
                             (st_heads st) filename)) as Hopts.
            rewrite Forall_forall in Hopts. by apply (Hopts call). }
        split; [done|]. simpl. apply list_elem_of_fmap.
        by exists (filename, Some rd). }
    split; [|exact Hnew].
    intros rp sub Hm.
    assert (Hcases : AppRoute rp sub ∈ st_app st
                     ∨ (rp = Path.rootPath regexp_replace (root options) dir
                        ∧ sub = st_subApp
                                  (install dir
                                     (resolve_layouts listByDirectory
                                        options dir) st
                                     (filename, Some rd)))).
    { revert Hm. unfold install_file. destruct (rd_fetch rd); simpl;
        rewrite elem_of_app, list_elem_of_singleton;
        (intros [?|Heq]; [by left|right; by injection Heq as -> ->]). }
    destruct Hcases as [Hold | [-> ->]]; [by apply Hall|].
    exists dir, content. split; [done|]. split; [done|]. exact Hnew.
  - intros dir content st (_ & Hall & _). exact Hall.
Qed.

End InstallationCensus.

(** ** Route objects *)

Section MethodMaps.

Context {Node Ctx Err World : Type}.
Variable render : Node → string.
Variable filePathToPath : string → string.
Variable groupByDirectory : ∀ A : Type, JsObject A → JsObject (JsObject A).
Variable regexp_replace : string → string → string.
Variable options : @ServerOptions Node Ctx Err World.
Variable path_match : string → string → bool.
Variable mergePath : string → string → string.
Variable next_of :
  list (@AppCall Node Ctx Err World) → string → string → Ctx
  → @Next Err World.

#[local] Abbreviation SubCall := (@SubCall Node Ctx Err World).
#[local] Abbreviation Installation := (@Installation Node Ctx Err World).
#[local] Abbreviation RouteDefault := (@RouteDefault Node Ctx Err World).
#[local] Abbreviation Member := (@Member Node Ctx Err World).
#[local] Abbreviation Route := (@Route Node Ctx Err World).

(** X15. The loop over the members of a route object registers, in the
    order of the members, one [subApp.on] handler for each member that is
    defined and is not under the key ['APP'], under the name of the
    member as the method and at the URL path of the file. An undefined
    member registers nothing, and the member under ['APP'] is invoked
    with the sub-router instead of being registered for a method. *)
Theorem method_members_registered path o
    (entries : JsObject (option Member)) :
  let calls := fold_left (install_entry path o) entries [] in
  omap on_method calls = (List.filter method_member entries).*1
  ∧ Forall (λ call,
      match call with
      | SubOn method p (CloMethod _ o') =>
          method ≠ "APP" ∧ p = path ∧ o' = o
      | SubUseApp p _ o' => p = path ∧ o' = o
      | _ => False
      end) calls.
Proof.
  induction entries as [|[method member] entries [IHm IHf]]; [by split|].
  cbv zeta. rewrite install_entries_unfold, omap_app, Forall_app.
  cbv zeta in IHm, IHf. rewrite IHm.
  unfold method_member. simpl.
  destruct (String.eqb_spec method "APP") as [->|Hne];
    destruct member as [m|]; simpl; repeat split; try done;
    by repeat constructor.
Qed.

Lemma method_calls_only path o (entries : JsObject (option Member)) :
  "APP" ∉ entries.*1 →
  Forall (λ call, ∃ method handler,
            call = SubOn method path (CloMethod handler o)
            ∧ method ∈ (List.filter method_member entries).*1)
         (fold_left (install_entry path o) entries []).
Proof.
  induction entries as [|[method member] entries IH]; [constructor|].
  intros Hno. rewrite install_entries_unfold.
  apply not_elem_of_cons in Hno as [Hne Hno]. simpl in Hne.
  specialize (IH Hno). apply Forall_app.
  unfold method_member. simpl.
  destruct (String.eqb_spec method "APP") as [->|_]; [done|].
  destruct member as [m|]; simpl.
  - split.
    + repeat constructor. eexists _, _. split; [done|]. by left.
    + eapply Forall_impl; [exact IH|].
      intros call (md & h & -> & Hin). eexists _, _. split; [done|]. by right.
  - split; [constructor|done].
Qed.

(** X16. A route object without an ['APP'] member that is not a function
    registers its defined members and nothing else: the calls of its
    turn are one [subApp.on] for each defined member and no other call,
    under the key of the member as the method and at the URL path of the
    file; the route of such a call runs the member registered under that
    key, which is called with the request context, the render context of
    the file and the [next] of the router, and what the member returns
    is rendered at 200 with the options of the file. *)
Theorem method_map_answers_its_methods path o (rd : RouteDefault) :
  rd_call rd = None →
  "APP" ∉ (rd_entries rd).*1 →
  (∀ call,
     call ∈ route_calls path o rd
     ↔ ∃ method member,
         (method, Some member) ∈ rd_entries rd
         ∧ call = SubOn method path (CloMethod (as_handler member) o))
  ∧ (∀ r : Route,
       r ∈ sub_routes render options mergePath (route_calls path o rd) →
       ∃ method member,
         (method, Some member) ∈ rd_entries rd
         ∧ SubOn method path (CloMethod (as_handler member) o)
           ∈ route_calls path o rd
         ∧ r_path r = path
         ∧ r_target r = TClosure (CloMethod (as_handler member) o))
  ∧ (∀ (member : Member) c next error,
       run_closure render options (CloMethod (as_handler member) o)
         c next error
       = let* res := as_handler member c (o_head o) next in
         toWebResponse render options res (Some 200%Z) o).
Proof.
  intros Hcall Hno.
  assert (Hcalls : ∀ call,
    call ∈ route_calls path o rd
    ↔ ∃ method member,
        (method, Some member) ∈ rd_entries rd
        ∧ call = SubOn method path (CloMethod (as_handler member) o)).
  { intros call. unfold route_calls. rewrite Hcall. simpl.
    rewrite install_entries_elem.
    split; intros (method & member & Hin & ->); exists method, member;
      (split; [done|]);
      (destruct (String.eqb_spec method "APP") as [->|_]; [|done]);
      exfalso; apply Hno; apply list_elem_of_fmap;
      by exists ("APP", Some member). }
  split; [exact Hcalls|]. split; [|done].
  intros r Hr. unfold sub_routes in Hr.
  apply list_elem_of_bind in Hr as (call & Hr & Hin).
  pose proof Hin as Hin'.
  apply Hcalls in Hin as (method & member & Hmember & ->).
  simpl in Hr. apply list_elem_of_singleton in Hr as ->.
  by exists method, member.
Qed.

(** X17. The turn of a route file with a default export ends with a
    mount of the whole sub-router as it then stands: the calls of the
    earlier files of the directory are still on it, so their routes are
    registered on the outermost router once more by each later file of
    the directory. The turn of a file without a default export changes
    nothing. *)
Theorem each_turn_mounts_whole_sub_router dir layouts (st : Installation)
    filename (rd : RouteDefault) :
  let install := install_file filePathToPath groupByDirectory regexp_replace
    options dir
                   layouts st in
  let st' := install (filename, Some rd) in
  let rootPath := Path.rootPath regexp_replace (root options) dir in
  st_app st' = st_app st ++ [AppRoute rootPath (st_subApp st')]
  ∧ st_subApp st `prefix_of` st_subApp st'
  ∧ (∀ r : Route,
       r ∈ sub_routes render options mergePath (st_subApp st) →
       {| r_method := r_method r; r_path := mergePath rootPath (r_path r);
          r_target := r_target r; r_onError := sub_onError (st_subApp st') |}
       ∈ mount render options mergePath rootPath (st_subApp st'))
  ∧ install (filename, None) = st.
Proof.
  intros install st' rootPath.
  assert (Hshape : st_app st' = st_app st ++ [AppRoute rootPath (st_subApp st')]
                   ∧ ∃ added, st_subApp st' = st_subApp st ++ added).
  { unfold st', install, install_file.
    destruct (rd_fetch rd); simpl; (split; [done|]).
    - by eexists.
    - rewrite (fold_left_extend _
                 (install_preserved_extend options dir _)).
      rewrite (fold_left_extend _ (install_entry_extend _ _)).
      destruct (rd_call rd); rewrite <- ?app_assoc; by eexists. }
  destruct Hshape as (Happ & added & Hsub).
  split; [exact Happ|]. split; [by exists added|]. split; [|done].
  intros r Hr. apply mount_elem. rewrite Hsub, sub_routes_app.
  apply elem_of_app. by left.
Qed.

End MethodMaps.

(** ** The Vite plugin *)

(** X18. [sonik] always returns the development server first, with the
    entry of the options or else the default entry; the minifier is
    added only for [minify: true] and the island components unless
    [islands: false], in that order, each at most once. Without options
    the plugins are the development server at the default entry and the
    island components. *)
Theorem sonik_plugins (defaultEntryPath : string)
    (options : option Vite.SonikOptions) :
  (∃ rest,
     Vite.sonik defaultEntryPath options
     = Vite.devServer (default defaultEntryPath (options ≫= Vite.entry))
       :: rest
     ∧ rest `sublist_of` [Vite.minifyEs; Vite.islandComponents]
     ∧ (Vite.minifyEs ∈ rest ↔ options ≫= Vite.minify = Some true)
     ∧ (Vite.islandComponents ∈ rest ↔ options ≫= Vite.islands ≠ Some false))
  ∧ Vite.sonik defaultEntryPath None
    = [Vite.devServer defaultEntryPath; Vite.islandComponents].
Proof.
  split; [|done].
  unfold Vite.sonik.
  destruct (options ≫= Vite.minify) as [[]|],
           (options ≫= Vite.islands) as [[]|];
    simpl; eexists; (split; [reflexivity|]);
    (split; [repeat first [apply sublist_nil | apply sublist_skip
                          | apply sublist_cons]|]);
    rewrite ?elem_of_cons, ?elem_of_nil; intuition congruence.
Qed.

(** ** The further concrete cases *)

(** Witness of X3: a chain that names a file that is no layout, in an
    application whose root has a layout. *)
Lemma chain_of_missing_layouts_witness :
  let o := {| o_head := 0; o_layouts := Some ["/app/routes/nothing.tsx"];
              o_filename := "index.tsx" |} in
  o_layouts o = Some ["/app/routes/nothing.tsx"]
  ∧ ["/app/routes/nothing.tsx"] ≠ []
  ∧ (200 <= default 200 None <= 599)%Z
  ∧ null_body_status (default 200%Z None) = false
  ∧ toWebResponse Example.render Cases.rooted (CNode "home") None o []
    = (Ok {| status := 200; headers := html_headers;
             body := "<!doctype html>home" |}, []).
Proof.
  intros o. split; [reflexivity|]. split; [discriminate|].
  split; [simpl; lia|]. split; [reflexivity|].
  apply (proj2 (chain_of_missing_layouts Example.render Cases.rooted
                  ["/app/routes/nothing.tsx"] "home" None o []
                  eq_refl ltac:(discriminate)
                  ltac:(by repeat constructor)));
    [simpl; lia | reflexivity].
Defined.

(** Witness of X4: the same application, with an empty chain. *)
Lemma empty_chain_is_no_chain_witness :
  let o := {| o_head := 0; o_layouts := Some []; o_filename := "index.tsx" |} in
  o_layouts o = Some []
  ∧ toWebResponse Example.render Cases.rooted (CNode "home") None o []
    = (Ok {| status := 200; headers := html_headers;
             body := "<!doctype html><R>home</R>" |}, []).
Proof.
  intros o. split; [reflexivity|].
  etrans;
    [apply (proj2 (empty_chain_is_no_chain Example.render Cases.rooted
                     (CNode "home") None o [] eq_refl)
              "home" (Example.wrap "R") eq_refl eq_refl)
    | reflexivity].
Defined.

(** Witness of X5: the layout of [a/b] wraps and the layout of [a]
    throws. *)
Lemma layout_exception_propagates_witness :
  let pA := "/app/routes/a/_layout.tsx" in
  let pB := "/app/routes/a/b/_layout.tsx" in
  let o := {| o_head := 0; o_layouts := Some [pA; pB];
              o_filename := "index.tsx" |} in
  LayoutSort.sort [pA; pB] = [pB] ++ pA :: []
  ∧ toWebResponse Example.render Cases.torn_outer (CNode "hello") None o []
    = (Throw (Raised "torn"), []).
Proof.
  intros pA pB o. split; [reflexivity|].
  apply (layout_exception_propagates Example.render Cases.torn_outer
           [pA; pB] [pB] pA [] (Cases.torn "torn") "hello" "<B>hello</B>"
           None o [] [] (Raised "torn") []);
    [reflexivity | discriminate | reflexivity | reflexivity | reflexivity
     | reflexivity].
Defined.

(** Witness of X6: a directory below [a/b] in the nested application. *)
Lemma layouts_inherited_from_parent_witness :
  Path.split "c" = ["c"]
  ∧ resolve_layouts Example.listByDirectory Example.nested
      "/app/routes/a/b/c"
    = Some ["/app/routes/a/_layout.tsx"; "/app/routes/a/b/_layout.tsx"].
Proof.
  split; [reflexivity|].
  etrans;
    [apply (proj1 (layouts_inherited_from_parent Example.listByDirectory
                     Example.nested) "/app/routes/a/b" "c" eq_refl)
    | reflexivity].
Defined.

(** Witness of X7: a directory outside the default root. *)
Lemma mount_prefix_relative_to_root_witness :
  Path.literal "/app/routes" = true
  ∧ (∀ rest, "/other/x" ≠ "/app/routes" +:+ rest)
  ∧ Path.rootPath Example.regexp_replace "/app/routes" "/other/x"
    = "/other/x".
Proof.
  assert (Houtside : ∀ rest, "/other/x" ≠ "/app/routes" +:+ rest)
    by (intros rest; discriminate).
  split; [reflexivity|]. split; [exact Houtside|].
  exact (proj2 (proj2 (proj1 (mount_prefix_relative_to_root
                                Example.regexp_replace "/app/routes")
                         eq_refl))
           "/other/x" Houtside).
Defined.

(** Witness of X8: the root directory of the application whose root has
    an error page. *)
Lemma no_preserved_calls_for_root_witness :
  let o := {| o_head := 0; o_layouts := None; o_filename := "index.tsx" |} in
  "/app/routes" = root Example.failing
  ∧ obj_get "/app/routes"
      (preservedMap Example.groupByDirectory Example.failing)
    = Some [("_error.tsx", Example.preserved "root error")]
  ∧ preserved_calls (preservedMap Example.groupByDirectory Example.failing)
      Example.failing "/app/routes" o = [].
Proof.
  intros o. split; [reflexivity|]. split; [reflexivity|].
  apply (no_preserved_calls_for_root Example.failing). by left.
Defined.

(** Witness of X10: the application with two pages has no preserved file
    in its root directory. *)
Lemma no_root_preserved_no_fallback_witness :
  opt_app Example.two_pages = None
  ∧ obj_get (root Example.two_pages)
      (preservedMap Example.groupByDirectory Example.two_pages) = None
  ∧ Example.request Example.two_pages "GET" "/zzz" 1 [] = (Ok None, []).
Proof.
  split; [reflexivity|]. split; [reflexivity|].
  apply (no_root_preserved_no_fallback Example.render Example.filePathToPath
           Example.groupByDirectory Example.listByDirectory
             Example.regexp_replace Example.two_pages
           Example.path_match Example.mergePath Example.next_of "GET" "/zzz" 1
             []
           eq_refl eq_refl).
  reflexivity.
Defined.

(** Witness of X11: two pages and a route file without a default
    export. *)
Lemma one_mount_and_one_head_per_file_witness :
  opt_app Cases.plain = None
  ∧ st_heads (install_routes Example.filePathToPath Example.groupByDirectory
                Example.listByDirectory Example.regexp_replace Cases.plain) = 2
  ∧ length (Example.create Cases.plain) = 2.
Proof.
  destruct (one_mount_and_one_head_per_file Example.filePathToPath
              Example.groupByDirectory Example.listByDirectory
                Example.regexp_replace Cases.plain)
    as [Hheads Hmounts].
  destruct (Hmounts eq_refl) as [Hlength _].
  split; [reflexivity|]. split; [exact Hheads | exact Hlength].
Defined.

(** Witness of X12 and X13: the page that throws, in a directory with an
    error page, under a root with an error page. *)
Lemma root_head_not_shared_witness :
  opt_createHead Example.failing = None
  ∧ opt_app Example.failing = None
  ∧ ∃ subApp call o,
      AppRoute "/a" subApp ∈ Example.create Example.failing
      ∧ call ∈ subApp
      ∧ call_options call = Some o
      ∧ o_head o = 0
      ∧ o_head o
        ≠ new_head Example.failing
            (st_heads (install_routes Example.filePathToPath
                         Example.groupByDirectory Example.listByDirectory
                           Example.regexp_replace
                         Example.failing)).
Proof.
  split; [reflexivity|]. split; [reflexivity|].
  eexists _, _, _.
  split; [by left|]. split; [right; by left|]. split; [reflexivity|].
  split; [reflexivity|].
  eapply proj2,
    (root_head_not_shared Example.filePathToPath Example.groupByDirectory
       Example.listByDirectory Example.regexp_replace Example.failing "/a");
    [reflexivity | reflexivity | by left | right; by left | reflexivity].
Defined.

Lemma route_files_do_not_share_heads_witness :
  opt_createHead Example.two_pages = None
  ∧ opt_app Example.two_pages = None
  ∧ ∃ subApp call1 call2 o1 o2,
      AppRoute "/a" subApp ∈ Example.create Example.two_pages
      ∧ call1 ∈ subApp ∧ call2 ∈ subApp
      ∧ is_preserved_call call1 = false ∧ is_preserved_call call2 = true
      ∧ call_options call1 = Some o1 ∧ call_options call2 = Some o2
      ∧ o_head o1 = o_head o2
      ∧ o1 = o2.
Proof.
  split; [reflexivity|]. split; [reflexivity|].
  eexists _, _, _, _, _.
  split; [by left|]. split; [by left|]. split; [right; by left|].
  split; [reflexivity|]. split; [reflexivity|].
  split; [reflexivity|]. split; [reflexivity|]. split; [reflexivity|].
  eapply
    (route_files_do_not_share_heads Example.filePathToPath
       Example.groupByDirectory Example.listByDirectory Example.regexp_replace
         Example.two_pages
       "/a" _ _ _ "/a");
    [reflexivity | reflexivity | by left | by left | by left
     | right; by left | reflexivity | reflexivity | reflexivity].
Defined.

(** Witness of X14: the mounts of the nested application. *)
Lemma handlers_render_with_directory_chain_witness :
  opt_app Example.nested = None
  ∧ ∃ subApp,
      AppRoute "/a/b" subApp ∈ Example.create Example.nested
      ∧ ∃ dir content,
          (dir, content)
          ∈ routesMap Example.groupByDirectory Example.nested
          ∧ "/a/b" = Path.rootPath Example.regexp_replace (root Example.nested)
            dir
          ∧ ∀ call o,
              call ∈ subApp → call_options call = Some o →
              o_layouts o
              = resolve_layouts Example.listByDirectory Example.nested dir
              ∧ o_filename o ∈ content.*1.
Proof.
  split; [reflexivity|]. eexists.
  split; [by left|].
  refine (handlers_render_with_directory_chain Example.filePathToPath
            Example.groupByDirectory Example.listByDirectory
              Example.regexp_replace Example.nested
            "/a/b" _ eq_refl _).
  by left.
Defined.

(** Witness of X16: the route object with a [GET] member, an undefined
    [PUT] member and a [POST] member. *)
Lemma method_map_answers_its_methods_witness :
  let o := {| o_head := 0; o_layouts := None; o_filename := "form.tsx" |} in
  rd_call Cases.form = None
  ∧ ("APP" ∉ (rd_entries Cases.form).*1)
  ∧ route_calls "/form" o Cases.form
    = [SubOn "GET" "/form" (CloMethod (as_handler (Cases.member "form")) o);
       SubOn "POST" "/form" (CloMethod (as_handler (Cases.member "sent")) o)]
  ∧ ∀ method h,
      SubOn method "/form" h ∈ route_calls "/form" o Cases.form →
      method ≠ "PUT".
Proof.
  intros o.
  assert (Hno : "APP" ∉ (rd_entries Cases.form).*1).
  { simpl. rewrite !not_elem_of_cons. repeat split; try discriminate.
    apply not_elem_of_nil. }
  split; [reflexivity|]. split; [exact Hno|]. split; [reflexivity|].
  intros method h Hin.
  apply (proj1 (method_map_answers_its_methods Example.render
                  Example.two_pages Example.mergePath "/form" o Cases.form
                  eq_refl Hno)) in Hin
    as (method' & member & Hmember & [= -> ->]).
  repeat (apply elem_of_cons in Hmember as [Heq|Hmember];
          [by simplify_eq|]).
  by apply elem_of_nil in Hmember.
Defined.
